(** * SparseMatrixWrapper (include/SparseMatrix.h): a shallow embedding

    The C++ class [puff::SparseMatrixWrapper<IndexType, ValueType, MemorySpace>]
    stages (row, col, value) entries in an [unordered_map] keyed by a packed
    64-bit key, materializes them into a COO matrix in row-major order,
    derives a transpose view through a permutation, and dispatches
    matrix-vector products to the cusp backend.

    Conventions of the embedding:
    - [IndexType] is [uint32_t] and [KEY_TYPE] is [uint64_t]; both are
      modelled as [Z] with the wrap-around written out ([wrap32], [wrap64]);
    - [ValueType] is a template parameter: it is an abstract type with the
      operations the class uses (class [ValueOps]); the algebraic laws that
      some results need are a separate class ([ValueLaws]);
    - an access outside a vector, and a backend call outside its contract,
      is undefined behaviour in C++: the operation returns [None];
    - vectors passed by reference live in a store indexed by addresses, so
      that [&x == &y] is a comparison of addresses. *)

From Stdlib Require Import ZArith Lia.
From stdpp Require Import base option list sorting gmap.

Local Open Scope Z_scope.

(** ** Fixed-width integers *)

Definition wrap32 (z : Z) : Z := z mod 2 ^ 32.
Definition wrap64 (z : Z) : Z := z mod 2 ^ 64.

Definition is_uint32 (z : Z) : Prop := 0 ≤ z < 2 ^ 32.
Definition is_uint64 (z : Z) : Prop := 0 ≤ z < 2 ^ 64.

(** ** Composite key codec (SparseMatrix.h, lines 259-269) *)

(** [return ((KEY_TYPE)row << 32) + col;] in 64-bit unsigned arithmetic. *)
Definition row_col_to_key (row col : Z) : Z :=
  wrap64 (wrap64 (Z.shiftl row 32) + col).

(** [row = static_cast<IndexType>(key >> 32); col = static_cast<IndexType>(key)]. *)
Definition key_to_row_col (key : Z) : Z * Z :=
  (wrap32 (Z.shiftr key 32), wrap32 key).

(** ** The value type *)

(** Operations of [ValueType] used by the class: construction from the
    literals 0 and 1, [==], [thrust::plus], [thrust::multiplies], and, for
    the complex instantiations selected by [if constexpr], conjugation.

    Modelled from the spec: [conjugate_functor] and the complex type names
    [dcomplex], [fcomplex], [hcomplex], [bcomplex] are declared in utils.h,
    which is not part of the sources at hand; [V_conj] is the conjugation the
    spec describes and [V_is_complex] is the outcome of the compile-time
    test on the value type. *)
Class ValueOps (V : Type) := {
  V_zero : V;
  V_one : V;
  V_plus : V → V → V;
  V_multiplies : V → V → V;
  V_conj : V → V;
  V_is_complex : bool;
  V_eq_dec :: EqDecision V;
}.

(** Laws of exact arithmetic that the scaled multiply-add identities use,
    and the involution law of conjugation. *)
Class ValueLaws (V : Type) `{ValueOps V} : Prop := {
  V_plus_zero_l : ∀ v : V, V_plus V_zero v = v;
  V_plus_zero_r : ∀ v : V, V_plus v V_zero = v;
  V_multiplies_zero_r : ∀ v : V, V_multiplies v V_zero = V_zero;
  V_multiplies_one_r : ∀ v : V, V_multiplies v V_one = v;
  V_conj_involutive : ∀ v : V, V_conj (V_conj v) = v;
}.

(** Two instantiations used to run the model: integers (a real value type)
    and Gaussian integers (a complex value type). Both satisfy the laws
    ([Z_laws], [Gauss_laws]). *)
#[export] Instance Z_ops : ValueOps Z := {|
  V_zero := 0; V_one := 1; V_plus := Z.add; V_multiplies := Z.mul;
  V_conj := λ v, v; V_is_complex := false;
|}.

#[export] Instance Gauss_ops : ValueOps (Z * Z) := {|
  V_zero := (0, 0); V_one := (1, 0);
  V_plus := λ a b, (a.1 + b.1, a.2 + b.2);
  V_multiplies := λ a b, (a.1 * b.1 - a.2 * b.2, a.1 * b.2 + a.2 * b.1);
  V_conj := λ a, (a.1, - a.2); V_is_complex := true;
|}.

(** A value type with a not-a-number element that absorbs sums and
    products, as the floating-point instantiations have; the comparisons
    that the class makes, all against 0 or 1, are false on it. It does not
    satisfy [ValueLaws]. *)
Definition nan_lift (f : Z → Z → Z) (a b : option Z) : option Z :=
  match a, b with
  | Some a, Some b => Some (f a b)
  | _, _ => None
  end.

#[export] Instance NaN_ops : ValueOps (option Z) := {|
  V_zero := Some 0; V_one := Some 1;
  V_plus := nan_lift Z.add; V_multiplies := nan_lift Z.mul;
  V_conj := λ v, v; V_is_complex := false;
|}.

(** ** Backend primitives on parallel sequences (thrust, cusp) *)

Section primitives.
Context {A : Type}.

(** Insertion of a keyed element in front of the first element whose key
    is not smaller: an element never overtakes one with an equal key that
    stands after it. *)
Fixpoint stable_insert (k : Z) (a : A) (l : list (Z * A)) : list (Z * A) :=
  match l with
  | [] => [(k, a)]
  | (k', a') :: l' =>
      if bool_decide (k ≤ k') then (k, a) :: (k', a') :: l'
      else (k', a') :: stable_insert k a l'
  end.

Fixpoint stable_sort (l : list (Z * A)) : list (Z * A) :=
  match l with
  | [] => []
  | (k, a) :: l' => stable_insert k a (stable_sort l')
  end.

(** [thrust::stable_sort_by_key(keys.begin(), keys.end(), values.begin())]:
    sorts the keys in ascending order, keeps the relative order of equal
    keys, and moves the values along with their keys. The result is the
    new contents of the key sequence and of the value sequence. *)
Definition stable_sort_by_key (keys : list Z) (vals : list A)
  : list Z * list A :=
  let s := stable_sort (zip keys vals) in (s.*1, s.*2).

(** [cusp::counting_sort_by_key(keys, vals, min, max)]: a stable counting
    sort; its buckets cover the keys from [min] to [max], a key outside of
    them indexes outside of the bucket array. *)
Definition counting_sort_by_key (keys : list Z) (vals : list A) (min max : Z)
  : option (list Z * list A) :=
  if bool_decide (Forall (λ k, min ≤ k ≤ max) keys)
  then Some (stable_sort_by_key keys vals)
  else None.
End primitives.

(** [*thrust::max_element(first, last)]: the largest element; dereferencing
    the result on an empty range is undefined. *)
Definition max_element (l : list Z) : option Z :=
  match l with
  | [] => None
  | z :: l' => Some (foldl Z.max z l')
  end.

(** [cusp::counting_array<IndexType>(n)]: 0, 1, ..., n-1. *)
Definition counting_array (n : nat) : list Z := Z.of_nat <$> seq 0 n.

(** ** Data model *)

(** [Vector<ValueType, MemorySpace>] is a sequence of values. Vectors
    passed by reference live in a store that maps an address to the
    contents of the vector found there. *)
Abbreviation Vector V := (list V) (only parsing).
Abbreviation store V := (list (list V)) (only parsing).

Section wrapper.
Context {V : Type} `{!ValueOps V}.

(** [SparseMatrix] is the backend's COO container: the dimensions and
    three parallel sequences. *)
Record coo_matrix := {
  num_rows : Z;
  num_cols : Z;
  num_entries : Z;
  row_indices : list Z;
  column_indices : list Z;
  values : list V;
}.

(** [SparseMatrixView] made by [cusp::make_coo_matrix_view]: it records
    the dimensions it was given; its three sequences are permutation
    iterators into the storage of [matrix], resolved by [matrix_t_view]
    each time the view is used. *)
Record coo_matrix_view := {
  view_num_rows : Z;
  view_num_cols : Z;
  view_num_entries : Z;
}.

Record SparseMatrixWrapper := {
  matrix : coo_matrix;
  matrix_t : coo_matrix_view;
  permutation : list Z;
  entries : gmap Z V;
}.

(** A default-constructed [coo_matrix] and [coo_matrix_view] are 0 x 0
    with no entries. *)
Definition coo_matrix_empty : coo_matrix :=
  {| num_rows := 0; num_cols := 0; num_entries := 0;
     row_indices := []; column_indices := []; values := [] |}.

Definition coo_matrix_view_empty : coo_matrix_view :=
  {| view_num_rows := 0; view_num_cols := 0; view_num_entries := 0 |}.

(** [SparseMatrixWrapper() {}] *)
Definition SparseMatrixWrapper_default : SparseMatrixWrapper :=
  {| matrix := coo_matrix_empty; matrix_t := coo_matrix_view_empty;
     permutation := []; entries := ∅ |}.

(** The converting constructor (lines 16-18). Inside its body the
    unqualified name [matrix] denotes the parameter, which hides the
    member of the same name: the frame keeps both. *)
Record ctor_frame := {
  arg_matrix : coo_matrix;
  this : SparseMatrixWrapper;
}.

(** Reading and assigning the unqualified name [matrix] in that frame. *)
Definition frame_read_matrix (f : ctor_frame) : coo_matrix := arg_matrix f.
Definition frame_assign_matrix (f : ctor_frame) (rhs : coo_matrix)
  : ctor_frame :=
  {| arg_matrix := rhs; this := this f |}.

(** [SparseMatrixWrapper(SparseMatrix matrix) { matrix = matrix; }]: the
    members are default-initialized, then the body runs. *)
Definition SparseMatrixWrapper_of (m : coo_matrix) : SparseMatrixWrapper :=
  let f := {| arg_matrix := m; this := SparseMatrixWrapper_default |} in
  this (frame_assign_matrix f (frame_read_matrix f)).

Definition get_num_rows (w : SparseMatrixWrapper) : Z := num_rows (matrix w).
Definition get_num_cols (w : SparseMatrixWrapper) : Z := num_cols (matrix w).
Definition get_num_entries (w : SparseMatrixWrapper) : Z :=
  num_entries (matrix w).

(** ** Entry store (lines 33-47) *)

Definition insert_entry (w : SparseMatrixWrapper) (row col : Z) (val : V)
  : SparseMatrixWrapper :=
  {| matrix := matrix w; matrix_t := matrix_t w;
     permutation := permutation w;
     entries := <[row_col_to_key row col := val]> (entries w) |}.

Definition remove_entry (w : SparseMatrixWrapper) (row col : Z)
  : SparseMatrixWrapper :=
  {| matrix := matrix w; matrix_t := matrix_t w;
     permutation := permutation w;
     entries := delete (row_col_to_key row col) (entries w) |}.

(** ** Materialization (lines 49-134) *)

(** The staging arrays and the counter [nnz] of the loop of lines 56-65. *)
Record staging := {
  h_I : list Z;
  h_J : list Z;
  h_V : list V;
  nnz : nat;
}.

(** The three arrays are allocated with [entries.size()] elements, which
    are value-initialized. *)
Definition staging_init (n : nat) : staging :=
  {| h_I := replicate n 0; h_J := replicate n 0;
     h_V := replicate n V_zero; nnz := 0 |}.

(** One iteration of the loop over the map. The writes at index [nnz]
    stay inside the arrays, since [nnz] counts bindings already visited
    ([staging_loop_invariant]). *)
Definition staging_step (s : staging) (kv : Z * V) : staging :=
  let '(row, col) := key_to_row_col kv.1 in
  if decide (kv.2 = V_zero) then s
  else {| h_I := <[nnz s := row]> (h_I s);
          h_J := <[nnz s := col]> (h_J s);
          h_V := <[nnz s := kv.2]> (h_V s);
          nnz := S (nnz s) |}.

(** [resize(nnz)] on the three arrays (lines 73-75). *)
Definition staging_resize (s : staging) : staging :=
  {| h_I := take (nnz s) (h_I s); h_J := take (nnz s) (h_J s);
     h_V := take (nnz s) (h_V s); nnz := nnz s |}.

(** The two stable sorts of lines 79-80: by [h_J] carrying [(h_I, h_V)],
    then by [h_I] carrying [(h_J, h_V)]. *)
Definition staging_sort (s : staging) : staging :=
  let '(j1, iv1) := stable_sort_by_key (h_J s) (zip (h_I s) (h_V s)) in
  let '(i2, jv2) := stable_sort_by_key iv1.*1 (zip j1 iv1.*2) in
  {| h_I := i2; h_J := jv2.*1; h_V := jv2.*2; nnz := nnz s |}.

(** Lines 52-121: the COO matrix built from the map iterated in the
    order [it]. [IndexType numRows = *max_element(...) + 1] is 32-bit
    unsigned arithmetic. *)
Definition make_coo (it : list (Z * V)) : option coo_matrix :=
  let s := staging_sort (staging_resize
             (foldl staging_step (staging_init (length it)) it)) in
  mI ← max_element (h_I s);
  mJ ← max_element (h_J s);
  let numRows := wrap32 (mI + 1) in
  let numCols := wrap32 (mJ + 1) in
  Some {| num_rows := numRows; num_cols := numCols;
          num_entries := Z.of_nat (length (h_V s));
          row_indices := h_I s; column_indices := h_J s;
          values := h_V s |}.

(** Lines 123-126: the permutation of the transpose view. *)
Definition make_permutation (m : coo_matrix) : option (list Z) :=
  let permutation := counting_array (Z.to_nat (num_entries m)) in
  let matrix_column_indices := column_indices m in
  kp ← counting_sort_by_key matrix_column_indices permutation
          0 (wrap32 (num_cols m));
  Some kp.2.

(** [make_matrix] for an iteration order [it] of the map. The map is
    swapped with an empty one (lines 67-71); the view is given the
    dimensions [matrix.num_rows, matrix.num_cols, matrix.num_entries]
    (line 127). *)
Definition make_matrix_from (it : list (Z * V)) (w : SparseMatrixWrapper)
  : option SparseMatrixWrapper :=
  m ← make_coo it;
  p ← make_permutation m;
  Some {| matrix := m;
          matrix_t := {| view_num_rows := num_rows m;
                         view_num_cols := num_cols m;
                         view_num_entries := num_entries m |};
          permutation := p;
          entries := ∅ |}.

(** The iteration order of an [unordered_map] is unspecified: any
    enumeration of its bindings is possible. *)
Definition iteration_order (m : gmap Z V) (it : list (Z * V)) : Prop :=
  it ≡ₚ map_to_list m.

Definition make_matrix (w : SparseMatrixWrapper)
  : option SparseMatrixWrapper :=
  make_matrix_from (map_to_list (entries w)) w.

(** [reset] (lines 136-144); the view and the permutation are left as
    they are. *)
Definition reset (w : SparseMatrixWrapper) : SparseMatrixWrapper :=
  {| matrix := coo_matrix_empty; matrix_t := matrix_t w;
     permutation := permutation w; entries := ∅ |}.

(** ** The transpose view resolved (lines 127-133) *)

(** Element [k] of [make_permutation_iterator(base.begin(), perm.begin())]
    is [base[perm[k]]]. *)
Definition permuted {A} (base : list A) (perm : list Z) : option (list A) :=
  mapM (λ p, base !! Z.to_nat p) perm.

(** The view as the backend reads it: row indices are the permuted
    column indices of [matrix], column indices its permuted row indices. *)
Definition matrix_t_view (w : SparseMatrixWrapper) : option coo_matrix :=
  r ← permuted (column_indices (matrix w)) (permutation w);
  c ← permuted (row_indices (matrix w)) (permutation w);
  v ← permuted (values (matrix w)) (permutation w);
  Some {| num_rows := view_num_rows (matrix_t w);
          num_cols := view_num_cols (matrix_t w);
          num_entries := view_num_entries (matrix_t w);
          row_indices := r; column_indices := c; values := v |}.

(** ** Numeric facade *)

(** The backend's COO product [cusp::multiply(A, x, y)], as its host
    kernel computes it: the first [A.num_rows] elements of [y] are set to
    zero, then every entry [n] adds [values[n] * x[column_indices[n]]] to
    [y[row_indices[n]]]. The backend does not resize [y]. *)
Definition multiply_init (n : nat) (y : Vector V) : option (Vector V) :=
  if bool_decide (n ≤ length y)%nat
  then Some (replicate n V_zero ++ drop n y) else None.

Definition multiply_entry (A : coo_matrix) (x y : Vector V) (n : nat)
  : option (Vector V) :=
  i ← row_indices A !! n;
  j ← column_indices A !! n;
  a ← values A !! n;
  xj ← x !! Z.to_nat j;
  yi ← y !! Z.to_nat i;
  Some (<[Z.to_nat i := V_plus yi (V_multiplies a xj)]> y).

Fixpoint multiply_loop (A : coo_matrix) (x y : Vector V) (ns : list nat)
  : option (Vector V) :=
  match ns with
  | [] => Some y
  | n :: ns' => y' ← multiply_entry A x y n; multiply_loop A x y' ns'
  end.

Definition multiply (A : coo_matrix) (x y : Vector V) : option (Vector V) :=
  y0 ← multiply_init (Z.to_nat (num_rows A)) y;
  multiply_loop A x y0 (seq 0 (Z.to_nat (num_entries A))).

(** [thrust::transform] of [matrix.values] with [conjugate_functor],
    compiled in for the complex value types only (lines 156-163 and
    183-190). *)
Definition conjugate_values (conjugate : bool) (w : SparseMatrixWrapper)
  : SparseMatrixWrapper :=
  if V_is_complex && conjugate then
    {| matrix := {| num_rows := num_rows (matrix w);
                    num_cols := num_cols (matrix w);
                    num_entries := num_entries (matrix w);
                    row_indices := row_indices (matrix w);
                    column_indices := column_indices (matrix w);
                    values := V_conj <$> values (matrix w) |};
       matrix_t := matrix_t w; permutation := permutation w;
       entries := entries w |}
  else w.

(** The operand of the product: [matrix_t] or [matrix]. *)
Definition operand (w : SparseMatrixWrapper) (transpose : bool)
  : option coo_matrix :=
  if transpose then matrix_t_view w else Some (matrix w).

(** [SpMV(x, y, transpose, conjugate)] (lines 151-191); [x] and [y] are
    the addresses of the two arguments. The local [temp(x.size())] of the
    aliased branch is value-initialized and replaces the contents of [y]
    by [y.swap(temp)]. *)
Definition SpMV (w : SparseMatrixWrapper) (x y : nat)
    (transpose conjugate : bool) (σ : store V)
  : option (SparseMatrixWrapper * store V) :=
  let w1 := conjugate_values conjugate w in
  A ← operand w1 transpose;
  vx ← σ !! x;
  σ' ← (if decide (x = y) then
          let temp := replicate (length vx) V_zero in
          temp' ← multiply A vx temp;
          Some (<[y := temp']> σ)
        else
          vy ← σ !! y;
          y' ← multiply A vx vy;
          Some (<[y := y']> σ));
  Some (conjugate_values conjugate w1, σ').

(** [thrust::transform(v.begin(), v.end(), constant(a), v.begin(),
    multiplies)]: every element is multiplied by [a] on the right. *)
Definition scale (a : V) (v : Vector V) : Vector V :=
  (λ e, V_multiplies e a) <$> v.

(** [thrust::transform(temp.begin(), temp.end(), y.begin(), y.begin(),
    plus)]: [y[i] = temp[i] + y[i]] for every index of [temp]. *)
Definition plus_into (temp y : Vector V) : option (Vector V) :=
  if bool_decide (length temp ≤ length y)%nat
  then Some (zip_with V_plus temp y ++ drop (length temp) y)
  else None.

Definition scale_at (a : V) (y : nat) (σ : store V) : option (store V) :=
  vy ← σ !! y; Some (<[y := scale a vy]> σ).

(** [SpMVP(alpha, x, beta, y, transpose, conjugate)] (lines 194-225).
    The local [temp] of the second branch lives at the first free
    address while the call runs. *)
Definition SpMVP (w : SparseMatrixWrapper) (alpha : V) (x : nat) (beta : V)
    (y : nat) (transpose conjugate : bool) (σ : store V)
  : option (SparseMatrixWrapper * store V) :=
  if decide (beta = V_zero) then
    '(w1, σ1) ← (if decide (alpha ≠ V_zero)
                 then SpMV w x y transpose conjugate σ
                 else Some (w, σ));
    σ2 ← (if decide (alpha ≠ V_one) then scale_at alpha y σ1
          else Some σ1);
    Some (w1, σ2)
  else
    vx ← σ !! x;
    let temp := length σ in
    let σ0 := σ ++ [replicate (length vx) V_zero] in
    '(w1, σ1) ← (if decide (alpha ≠ V_zero)
                 then SpMV w x temp transpose conjugate σ0
                 else Some (w, σ0));
    σ2 ← (if decide (alpha ≠ V_zero ∧ alpha ≠ V_one)
          then scale_at alpha temp σ1 else Some σ1);
    σ3 ← (if decide (beta ≠ V_one) then scale_at beta y σ2
          else Some σ2);
    vt ← σ3 !! temp;
    vy ← σ3 !! y;
    r ← plus_into vt vy;
    Some (w1, take temp (<[y := r]> σ3)).

End wrapper.

Arguments coo_matrix V : clear implicits.
Arguments SparseMatrixWrapper V : clear implicits.
Arguments staging V : clear implicits.


(** ** Vocabulary of the properties *)

(** The order produced by sorting on the key a sequence that was in the
    order [R]: by key first, and by [R] among equal keys. *)
Definition lex_key {A} (R : relation (Z * A)) : relation (Z * A) :=
  λ p q, p.1 < q.1 ∨ (p.1 = q.1 ∧ R p q).

(** Row-major order of two parallel index sequences: positions further
    right have a larger row index, or the same row index and a column index
    that is not smaller. *)
Definition row_major (I J : list Z) : Prop :=
  ∀ (a b : nat) (ra rb ca cb : Z),
    (a < b)%nat →
    I !! a = Some ra → I !! b = Some rb →
    J !! a = Some ca → J !! b = Some cb →
    ra < rb ∨ (ra = rb ∧ ca ≤ cb).

(** Exchange of the two leading components of a triplet: the first sort is
    keyed on the column index, the second on the row index. *)
Definition swap_keys {A} (t : Z * (Z * A)) : Z * (Z * A) :=
  (t.2.1, (t.1, t.2.2)).

Section vocabulary.
Context {V : Type} `{!ValueOps V}.

(** The (row, column, value) triplets of a COO matrix, in storage order. *)
Definition coo_triplets (m : coo_matrix V) : list (Z * (Z * V)) :=
  zip (row_indices m) (zip (column_indices m) (values m)).

(** The bindings of the map that survive zero-filtering, decoded, in
    iteration order. *)
Definition surviving (it : list (Z * V)) : list (Z * (Z * V)) :=
  (λ kv, ((key_to_row_col kv.1).1, ((key_to_row_col kv.1).2, kv.2)))
    <$> filter (λ kv, kv.2 ≠ V_zero) it.

(** The values stored at coordinate (r, c), in storage order. *)
Definition entries_at (m : coo_matrix V) (r c : Z) : list V :=
  (λ t, t.2.2) <$> filter (λ t, t.1 = r ∧ t.2.1 = c) (coo_triplets m).

(** The triplets of a staging area. *)
Definition staging_triplets (s : staging V) : list (Z * (Z * V)) :=
  zip (h_I s) (zip (h_J s) (h_V s)).

(** The three arrays of a staging area have the same length. *)
Definition staging_aligned (s : staging V) : Prop :=
  length (h_I s) = length (h_J s) ∧ length (h_J s) = length (h_V s).

(** Every key of the map is a 64-bit value. *)
Definition keys_uint64 (m : gmap Z V) : Prop :=
  ∀ k v, m !! k = Some v → is_uint64 k.

(** [z] is the largest element of [l]. *)
Definition is_max (z : Z) (l : list Z) : Prop :=
  z ∈ l ∧ Forall (λ y, y ≤ z) l.
End vocabulary.

(** Calls on the entry store, to speak of what was inserted last. *)
Inductive store_op (V : Type) : Type :=
  | Insert (row col : Z) (val : V)
  | Remove (row col : Z).
Arguments Insert {V} row col val.
Arguments Remove {V} row col.

Definition op_coordinate {V} (op : store_op V) : Z * Z :=
  match op with
  | Insert row col _ => (row, col)
  | Remove row col => (row, col)
  end.

Definition apply_op {V} `{!ValueOps V}
    (w : SparseMatrixWrapper V) (op : store_op V) : SparseMatrixWrapper V :=
  match op with
  | Insert row col val => insert_entry w row col val
  | Remove row col => remove_entry w row col
  end.

Definition apply_ops {V} `{!ValueOps V}
    (w : SparseMatrixWrapper V) (ops : list (store_op V))
  : SparseMatrixWrapper V :=
  foldl apply_op w ops.

(** A call with 32-bit indices that addresses another coordinate than
    (r, c). *)
Definition elsewhere {V} (r c : Z) (op : store_op V) : Prop :=
  is_uint32 (op_coordinate op).1 ∧ is_uint32 (op_coordinate op).2 ∧
  op_coordinate op ≠ (r, c).

(** ** Concrete instances over the integers *)

Definition example_empty : SparseMatrixWrapper Z := SparseMatrixWrapper_default.

(** The matrix [[1, 2], [3, 4]], inserted out of order. *)
Definition example_2x2 : SparseMatrixWrapper Z :=
  apply_ops example_empty
    [Insert 1 1 4; Insert 0 1 2; Insert 1 0 3; Insert 0 0 1].

Definition example_2x2_made : SparseMatrixWrapper Z :=
  {| matrix := {| num_rows := 2; num_cols := 2; num_entries := 4;
                  row_indices := [0; 0; 1; 1];
                  column_indices := [0; 1; 0; 1];
                  values := [1; 2; 3; 4] |};
     matrix_t := {| view_num_rows := 2; view_num_cols := 2;
                    view_num_entries := 4 |};
     permutation := [0; 2; 1; 3];
     entries := ∅ |}.

(** Entries at rows {0, 3, 1} and columns {2, 5, 0}. *)
Definition example_dims : SparseMatrixWrapper Z :=
  apply_ops example_empty [Insert 0 2 1; Insert 3 5 2; Insert 1 0 3].

Definition example_dims_made : SparseMatrixWrapper Z :=
  {| matrix := {| num_rows := 4; num_cols := 6; num_entries := 3;
                  row_indices := [0; 1; 3];
                  column_indices := [2; 0; 5];
                  values := [1; 3; 2] |};
     matrix_t := {| view_num_rows := 4; view_num_cols := 6;
                    view_num_entries := 3 |};
     permutation := [1; 0; 2];
     entries := ∅ |}.



(** (2, 3) written twice, and (1, 1) written and then zeroed. *)
Definition example_overwrite : SparseMatrixWrapper Z :=
  insert_entry (insert_entry (insert_entry example_empty 0 0 9) 2 3 5) 2 3 7.

Definition example_overwrite_made : SparseMatrixWrapper Z :=
  {| matrix := {| num_rows := 3; num_cols := 4; num_entries := 2;
                  row_indices := [0; 2];
                  column_indices := [0; 3];
                  values := [9; 7] |};
     matrix_t := {| view_num_rows := 3; view_num_cols := 4;
                    view_num_entries := 2 |};
     permutation := [0; 1];
     entries := ∅ |}.

Definition example_zeroed : SparseMatrixWrapper Z :=
  apply_ops (insert_entry (insert_entry example_empty 1 1 8) 1 1 0)
    [Insert 0 2 6; Remove 5 5].

Definition example_zeroed_made : SparseMatrixWrapper Z :=
  {| matrix := {| num_rows := 1; num_cols := 3; num_entries := 1;
                  row_indices := [0];
                  column_indices := [2];
                  values := [6] |};
     matrix_t := {| view_num_rows := 1; view_num_cols := 3;
                    view_num_entries := 1 |};
     permutation := [0];
     entries := ∅ |}.

(** ** Vocabulary of the numeric facade *)

Section facade_vocabulary.
Context {V : Type} `{!ValueOps V}.

(** The backend product with its two vectors given by address, as the
    host kernel runs it on the storage it is handed: the first
    [A.num_rows] elements of the vector at [y] are set to zero, then
    every entry [n] reads [x[column_indices[n]]] and [y[row_indices[n]]]
    from the store and writes the sum back to [y[row_indices[n]]]. When
    [x] and [y] are one address the kernel reads elements that it has
    already overwritten. *)
Definition multiply_entry_at (A : coo_matrix V) (x y : nat)
    (σ : list (list V)) (n : nat) : option (list (list V)) :=
  i ← row_indices A !! n;
  j ← column_indices A !! n;
  a ← values A !! n;
  vx ← σ !! x;
  xj ← vx !! Z.to_nat j;
  vy ← σ !! y;
  yi ← vy !! Z.to_nat i;
  Some (<[y := <[Z.to_nat i := V_plus yi (V_multiplies a xj)]> vy]> σ).

Fixpoint multiply_loop_at (A : coo_matrix V) (x y : nat)
    (σ : list (list V)) (ns : list nat) : option (list (list V)) :=
  match ns with
  | [] => Some σ
  | n :: ns' => σ' ← multiply_entry_at A x y σ n;
                multiply_loop_at A x y σ' ns'
  end.

Definition multiply_at (A : coo_matrix V) (x y : nat) (σ : list (list V))
  : option (list (list V)) :=
  vy ← σ !! y;
  y0 ← multiply_init (Z.to_nat (num_rows A)) vy;
  multiply_loop_at A x y (<[y := y0]> σ) (seq 0 (Z.to_nat (num_entries A))).

(** [SpMV] (lines 151-191) with the backend product run on the store.
    In the aliased branch the local [temp(x.size())] is a new vector at
    the first free address; the product is written there,
    [y.swap(temp)] gives its contents to [y], and [temp] is destroyed
    at the end of the block. *)
Definition SpMV_in_store (w : SparseMatrixWrapper V) (x y : nat)
    (transpose conjugate : bool) (σ : list (list V))
  : option (SparseMatrixWrapper V * list (list V)) :=
  let w1 := conjugate_values conjugate w in
  A ← operand w1 transpose;
  vx ← σ !! x;
  σ' ← (if decide (x = y) then
          let temp := length σ in
          σ1 ← multiply_at A x temp (σ ++ [replicate (length vx) V_zero]);
          vt ← σ1 !! temp;
          Some (take temp (<[y := vt]> σ1))
        else multiply_at A x y σ);
  Some (conjugate_values conjugate w1, σ').

(** The two-step computation of the specification, in its words:
    [temp = A * x], the product of the operand with the contents of [x]
    in a vector of its own with one element per row of the operand, and
    then [y = temp]. It is written with the backend product on values
    and does not call [SpMV]. *)
Definition two_step_product (w : SparseMatrixWrapper V) (x y : nat)
    (transpose conjugate : bool) (σ : list (list V))
  : option (SparseMatrixWrapper V * list (list V)) :=
  let w1 := conjugate_values conjugate w in
  A ← operand w1 transpose;
  vx ← σ !! x;
  temp ← multiply A vx (replicate (Z.to_nat (num_rows A)) V_zero);
  _ ← σ !! y;
  Some (conjugate_values conjugate w1, <[y := temp]> σ).

(** A COO matrix whose three sequences have [num_entries] elements and
    whose indices lie within its dimensions: what the backend's product
    expects. *)
Definition coo_wf (A : coo_matrix V) : Prop :=
  length (row_indices A) = Z.to_nat (num_entries A) ∧
  length (column_indices A) = Z.to_nat (num_entries A) ∧
  length (values A) = Z.to_nat (num_entries A) ∧
  Forall (λ i, 0 ≤ i < num_rows A) (row_indices A) ∧
  Forall (λ j, 0 ≤ j < num_cols A) (column_indices A).

(** An explicitly transposed copy of a COO matrix: the dimensions and
    the index sequences are exchanged and the triplets are put in
    row-major order by the two stable sorts of [make_matrix]. *)
Definition transpose_copy (m : coo_matrix V) : coo_matrix V :=
  let s := staging_sort {| h_I := column_indices m; h_J := row_indices m;
                           h_V := values m;
                           nnz := length (values m) |} in
  {| num_rows := num_cols m; num_cols := num_rows m;
     num_entries := num_entries m;
     row_indices := h_I s; column_indices := h_J s; values := h_V s |}.

(** [y = alpha * Ax + beta * y0], element by element, with the scalars
    on the right as [SpMVP] multiplies. *)
Definition axpby (alpha : V) (Ax : list V) (beta : V) (y0 : list V)
  : list V :=
  zip_with V_plus (scale alpha Ax) (scale beta y0).
End facade_vocabulary.

(** A complex 2 x 2 matrix over the Gaussian integers. *)
Definition example_complex : SparseMatrixWrapper (Z * Z) :=
  {| matrix := {| num_rows := 2; num_cols := 2; num_entries := 3;
                  row_indices := [0; 0; 1];
                  column_indices := [0; 1; 1];
                  values := [(1, 2); (0, -1); (3, 0)] |};
     matrix_t := {| view_num_rows := 2; view_num_cols := 2;
                    view_num_entries := 3 |};
     permutation := [0; 1; 2];
     entries := ∅ |}.

(** The 1 x 3 matrix [[1, 2, 3]] and the 2 x 1 matrix [[1], [2]]. *)
Definition example_1x3 : SparseMatrixWrapper Z :=
  apply_ops example_empty [Insert 0 0 1; Insert 0 1 2; Insert 0 2 3].

Definition example_1x3_made : SparseMatrixWrapper Z :=
  {| matrix := {| num_rows := 1; num_cols := 3; num_entries := 3;
                  row_indices := [0; 0; 0];
                  column_indices := [0; 1; 2];
                  values := [1; 2; 3] |};
     matrix_t := {| view_num_rows := 1; view_num_cols := 3;
                    view_num_entries := 3 |};
     permutation := [0; 1; 2];
     entries := ∅ |}.

Definition example_2x1 : SparseMatrixWrapper Z :=
  apply_ops example_empty [Insert 0 0 1; Insert 1 0 2].

Definition example_2x1_made : SparseMatrixWrapper Z :=
  {| matrix := {| num_rows := 2; num_cols := 1; num_entries := 2;
                  row_indices := [0; 1];
                  column_indices := [0; 0];
                  values := [1; 2] |};
     matrix_t := {| view_num_rows := 2; view_num_cols := 1;
                    view_num_entries := 2 |};
     permutation := [0; 1];
     entries := ∅ |}.

(** The 1 x 1 matrix [[1]] over the value type with a not-a-number. *)
Definition example_nan : SparseMatrixWrapper (option Z) :=
  {| matrix := {| num_rows := 1; num_cols := 1; num_entries := 1;
                  row_indices := [0]; column_indices := [0];
                  values := [Some 1] |};
     matrix_t := {| view_num_rows := 1; view_num_cols := 1;
                    view_num_entries := 1 |};
     permutation := [0];
     entries := ∅ |}.

(** A COO matrix with its declared dimensions replaced. *)
Definition with_dimensions {V} (m : coo_matrix V) (rows cols : Z)
  : coo_matrix V :=
  {| num_rows := rows; num_cols := cols; num_entries := num_entries m;
     row_indices := row_indices m; column_indices := column_indices m;
     values := values m |}.

(** The 3 x 1 matrix [[1], [2], [3]]. *)
Definition example_3x1 : SparseMatrixWrapper Z :=
  apply_ops example_empty [Insert 2 0 3; Insert 0 0 1; Insert 1 0 2].

Definition example_3x1_made : SparseMatrixWrapper Z :=
  {| matrix := {| num_rows := 3; num_cols := 1; num_entries := 3;
                  row_indices := [0; 1; 2];
                  column_indices := [0; 0; 0];
                  values := [1; 2; 3] |};
     matrix_t := {| view_num_rows := 3; view_num_cols := 1;
                    view_num_entries := 3 |};
     permutation := [0; 1; 2];
     entries := ∅ |}.

(** The COO matrix made of a sequence of triplets, with the dimensions
    that [make_matrix] infers. *)
Definition coo_of_triplets {V} (T : list (Z * (Z * V)))
  : option (coo_matrix V) :=
  mI ← max_element (T.*1);
  mJ ← max_element (T.*2.*1);
  Some {| num_rows := wrap32 (mI + 1); num_cols := wrap32 (mJ + 1);
          num_entries := Z.of_nat (length (T.*2.*2));
          row_indices := T.*1; column_indices := T.*2.*1;
          values := T.*2.*2 |}.

(** The 2 x 2 example with (1, 0) removed and (0, 2) inserted. *)
Definition example_removed : SparseMatrixWrapper Z :=
  apply_ops (remove_entry example_2x2 1 0) [Insert 0 2 6].

Definition example_removed_made : SparseMatrixWrapper Z :=
  {| matrix := {| num_rows := 2; num_cols := 3; num_entries := 4;
                  row_indices := [0; 0; 0; 1];
                  column_indices := [0; 1; 2; 1];
                  values := [1; 2; 6; 4] |};
     matrix_t := {| view_num_rows := 2; view_num_cols := 3;
                    view_num_entries := 4 |};
     permutation := [0; 1; 3; 2];
     entries := ∅ |}.

(** The iteration of the map of the 2 x 2 example in ascending key
    order. *)
Definition example_2x2_ascending : list (Z * Z) :=
  [(0, 1); (1, 2); (4294967296, 3); (4294967297, 4)].
(** * Properties *)

(** ** The value types of the examples *)

#[export] Instance Z_laws : ValueLaws Z.
Proof. split; simpl; intros; lia. Qed.

#[export] Instance Gauss_laws : ValueLaws (Z * Z).
Proof. split; simpl; intros [a b]; simpl; f_equal; lia. Qed.

(** ** The composite key codec *)

Lemma row_col_to_key_spec (row col : Z) :
  is_uint32 row → is_uint32 col → row_col_to_key row col = row * 2 ^ 32 + col.
Proof.
  unfold is_uint32, row_col_to_key, wrap64. intros Hr Hc.
  rewrite Z.shiftl_mul_pow2 by lia.
  rewrite (Z.mod_small (row * 2 ^ 32)) by lia.
  apply Z.mod_small. lia.
Qed.

Lemma row_col_to_key_uint64 (row col : Z) :
  is_uint64 (row_col_to_key row col).
Proof. unfold is_uint64, row_col_to_key, wrap64. apply Z.mod_pos_bound. lia. Qed.

Lemma key_to_row_col_uint32 (key : Z) :
  is_uint32 (key_to_row_col key).1 ∧ is_uint32 (key_to_row_col key).2.
Proof.
  unfold is_uint32, key_to_row_col, wrap32; simpl.
  split; apply Z.mod_pos_bound; lia.
Qed.

Lemma key_to_row_col_spec (key : Z) :
  is_uint64 key →
  key_to_row_col key = (key / 2 ^ 32, key mod 2 ^ 32).
Proof.
  unfold is_uint64, key_to_row_col, wrap32. intros Hk.
  rewrite Z.shiftr_div_pow2 by lia. f_equal.
  apply Z.mod_small. split.
  - apply Z.div_pos; lia.
  - apply Z.div_lt_upper_bound; lia.
Qed.

(** Packing a decoded key gives the key back: decoding is injective on
    64-bit keys. *)
Lemma row_col_to_key_to_row_col (key : Z) :
  is_uint64 key →
  row_col_to_key (key_to_row_col key).1 (key_to_row_col key).2 = key.
Proof.
  intros Hk. pose proof (key_to_row_col_uint32 key) as [H1 H2].
  rewrite row_col_to_key_spec by done.
  rewrite key_to_row_col_spec by done. simpl.
  pose proof (Z.div_mod key (2 ^ 32)). lia.
Qed.

Lemma key_to_row_col_inj (k1 k2 : Z) :
  is_uint64 k1 → is_uint64 k2 →
  key_to_row_col k1 = key_to_row_col k2 → k1 = k2.
Proof.
  intros H1 H2 E.
  rewrite <- (row_col_to_key_to_row_col k1), <- (row_col_to_key_to_row_col k2)
    by done.
  by rewrite E.
Qed.

Lemma key_round_trip (row col : Z) :
  is_uint32 row → is_uint32 col →
  (key_to_row_col (row_col_to_key row col)).1 = row ∧
  (key_to_row_col (row_col_to_key row col)).2 = col.
Proof.
  intros Hr Hc.
  rewrite key_to_row_col_spec by apply row_col_to_key_uint64.
  rewrite row_col_to_key_spec by done.
  unfold is_uint32 in *. cbn. split.
  - rewrite Z.div_add_l by lia. rewrite Z.div_small by lia. lia.
  - rewrite Z.add_comm, Z.mod_add by lia. apply Z.mod_small. lia.
Qed.

(** C9. For every row index and column index that fit in 32 bits the codec
    is a lossless round trip, [key_to_row_col (row_col_to_key row col) =
    (row, col)], and [row_col_to_key] is injective on such pairs: distinct
    coordinates never share a 64-bit key. *)
Theorem C9_key_codec_round_trip (row col : Z) :
  is_uint32 row → is_uint32 col →
  key_to_row_col (row_col_to_key row col) = (row, col) ∧
  (∀ row' col', is_uint32 row' → is_uint32 col' →
     row_col_to_key row col = row_col_to_key row' col' →
     row = row' ∧ col = col').
Proof.
  assert (RT : ∀ r c, is_uint32 r → is_uint32 c →
                 key_to_row_col (row_col_to_key r c) = (r, c)).
  { intros r c Hr Hc. destruct (key_round_trip r c Hr Hc) as [E1 E2].
    destruct (key_to_row_col (row_col_to_key r c)); cbn in *; congruence. }
  intros Hr Hc. split; [by apply RT|].
  intros row' col' Hr' Hc' E.
  pose proof (RT row col Hr Hc) as E1.
  pose proof (RT row' col' Hr' Hc') as E2.
  rewrite E in E1. rewrite E1 in E2. by inversion E2.
Qed.

Lemma C9_key_codec_round_trip_witness :
  key_to_row_col (row_col_to_key 3 4294967295) = (3, 4294967295) ∧
  (∀ row' col', is_uint32 row' → is_uint32 col' →
     row_col_to_key 3 4294967295 = row_col_to_key row' col' →
     3 = row' ∧ 4294967295 = col').
Proof. apply C9_key_codec_round_trip; unfold is_uint32; lia. Defined.

(** ** The converting constructor *)

(** C10. For every matrix [m], the wrapper constructed from [m] by the
    converting constructor has the same internal matrix as a
    default-constructed wrapper (in fact it is the same wrapper): the body
    assigns the parameter to itself and the argument is discarded. *)
Theorem C10_converting_constructor_discards_argument
    {V : Type} `{!ValueOps V} (m : coo_matrix V) :
  matrix (SparseMatrixWrapper_of m) = matrix SparseMatrixWrapper_default ∧
  SparseMatrixWrapper_of m = SparseMatrixWrapper_default ∧
  get_num_rows (SparseMatrixWrapper_of m) = 0 ∧
  get_num_cols (SparseMatrixWrapper_of m) = 0 ∧
  get_num_entries (SparseMatrixWrapper_of m) = 0.
Proof. repeat split. Qed.

(** ** Stable sorting *)

Section stable_sort_facts.
Context {A : Type}.
Implicit Types (l s : list (Z * A)) (R : relation (Z * A)).

Lemma stable_insert_Permutation k a l :
  stable_insert k a l ≡ₚ (k, a) :: l.
Proof.
  induction l as [|[k' a'] l IH]; simpl; [done|].
  case_bool_decide; [done|].
  rewrite IH. apply Permutation_swap.
Qed.

Lemma stable_sort_Permutation l : stable_sort l ≡ₚ l.
Proof.
  induction l as [|[k a] l IH]; simpl; [done|].
  by rewrite stable_insert_Permutation, IH.
Qed.

Lemma stable_sort_length l : length (stable_sort l) = length l.
Proof. by rewrite stable_sort_Permutation. Qed.

Lemma lex_key_le R p q : lex_key R p q → p.1 ≤ q.1.
Proof. unfold lex_key. lia. Qed.

Lemma stable_insert_lex R k a s :
  StronglySorted (lex_key R) s →
  Forall (R (k, a)) s →
  StronglySorted (lex_key R) (stable_insert k a s).
Proof.
  induction s as [|[k' a'] s IH]; simpl; intros Hs HR.
  { repeat constructor. }
  apply StronglySorted_cons in Hs as [Hhd Hs].
  apply Forall_cons in HR as [HR1 HR].
  case_bool_decide as Hk.
  - apply StronglySorted_cons. split.
    + apply Forall_cons. split.
      * unfold lex_key; simpl. destruct (decide (k = k')); [right|left]; 
          [done|lia].
      * rewrite Forall_forall in Hhd, HR |- *. intros q Hq.
        specialize (Hhd q Hq). apply lex_key_le in Hhd. simpl in Hhd.
        specialize (HR q Hq). unfold lex_key; simpl.
        destruct (decide (k = q.1)); [right|left]; [done|lia].
    + apply StronglySorted_cons. done.
  - apply StronglySorted_cons. split; [|by apply IH].
    rewrite stable_insert_Permutation. apply Forall_cons. split; [|done].
    left; simpl; lia.
Qed.

(** Sorting by key a sequence that is in the order [R] yields the
    lexicographic order: the sort is stable. *)
Lemma stable_sort_lex R l :
  StronglySorted R l → StronglySorted (lex_key R) (stable_sort l).
Proof.
  induction l as [|[k a] l IH]; simpl; intros Hl; [constructor|].
  apply StronglySorted_cons in Hl as [Hhd Hl].
  apply stable_insert_lex; [by apply IH|].
  by rewrite stable_sort_Permutation.
Qed.

Lemma StronglySorted_True l :
  StronglySorted (λ _ _ : Z * A, True) l.
Proof.
  induction l; constructor; [done|]. by apply Forall_forall.
Qed.

Lemma StronglySorted_mono (R1 R2 : relation (Z * A)) l :
  (∀ p q, R1 p q → R2 p q) →
  StronglySorted R1 l → StronglySorted R2 l.
Proof.
  intros HR. induction 1 as [|p l Hl IH Hhd]; constructor; [done|].
  eapply Forall_impl; [done|]. auto.
Qed.

Lemma stable_sort_sorted l :
  StronglySorted (λ p q, p.1 ≤ q.1) (stable_sort l).
Proof.
  eapply StronglySorted_mono; [|apply (stable_sort_lex (λ _ _, True))].
  - intros p q. apply lex_key_le.
  - apply StronglySorted_True.
Qed.

(** A sequence already sorted on its keys is left as it is. *)
Lemma stable_sort_id l :
  StronglySorted (λ p q, p.1 ≤ q.1) l → stable_sort l = l.
Proof.
  induction l as [|[k a] l IH]; simpl; intros Hl; [done|].
  apply StronglySorted_cons in Hl as [Hhd Hl].
  rewrite IH by done.
  destruct l as [|[k' a'] l]; simpl; [done|].
  apply Forall_cons in Hhd as [Hk _]. simpl in Hk.
  by rewrite bool_decide_true.
Qed.

Lemma StronglySorted_lookup R l (a b : nat) p q :
  StronglySorted R l → (a < b)%nat →
  l !! a = Some p → l !! b = Some q → R p q.
Proof.
  intros Hl. revert a b. induction Hl as [|x l Hl IH Hhd]; intros a b Hab Ha Hb.
  { by rewrite lookup_nil in Ha. }
  destruct b as [|b]; [lia|]. simpl in Hb.
  destruct a as [|a]; simpl in Ha.
  - simplify_eq. rewrite Forall_forall in Hhd. apply Hhd.
    by eapply list_elem_of_lookup_2.
  - eapply IH; [|done..]. lia.
Qed.
End stable_sort_facts.

(** The values ride along with their keys: a function applied to the
    values commutes with the sort. *)
Lemma stable_insert_fmap {A B} (f : A → B) k a (l : list (Z * A)) :
  stable_insert k (f a) (prod_map id f <$> l) =
  prod_map id f <$> stable_insert k a l.
Proof.
  induction l as [|[k' a'] l IH]; simpl; [done|].
  case_bool_decide; simpl; [done|]. f_equal. apply IH.
Qed.

Lemma stable_sort_fmap {A B} (f : A → B) (l : list (Z * A)) :
  stable_sort (prod_map id f <$> l) = prod_map id f <$> stable_sort l.
Proof.
  induction l as [|[k a] l IH]; simpl; [done|].
  etrans; [|apply stable_insert_fmap]. f_equal. apply IH.
Qed.

(** ** Parallel sequences *)

Lemma zip_swap_keys {A} (I J : list Z) (X : list A) :
  zip J (zip I X) = swap_keys <$> zip I (zip J X).
Proof.
  revert J X. induction I as [|i I IH]; intros [|j J] [|x X]; simpl; try done.
  f_equal. apply IH.
Qed.

Lemma zip_projections {A} (l : list (Z * (Z * A))) :
  zip (l.*1) (zip (l.*2.*1) (l.*2.*2)) = l.
Proof.
  induction l as [|[i [j x]] l IH]; simpl; [done|]. f_equal. apply IH.
Qed.

Lemma zip_projections_swapped {A} (l : list (Z * (Z * A))) :
  zip (l.*2.*1) (zip (l.*1) (l.*2.*2)) = swap_keys <$> l.
Proof.
  by rewrite (zip_swap_keys (l.*1) (l.*2.*1) (l.*2.*2)), zip_projections.
Qed.

Lemma swap_keys_involutive {A} (l : list (Z * (Z * A))) :
  swap_keys <$> (swap_keys <$> l) = l.
Proof.
  rewrite <- list_fmap_compose. rewrite <- (list_fmap_id l) at 2.
  apply list_fmap_ext. by intros _ [i [j x]] _.
Qed.

Lemma max_element_is_max (l : list Z) (z : Z) :
  max_element l = Some z → is_max z l.
Proof.
  destruct l as [|y l]; simpl; [done|]. intros [= <-].
  assert (G : ∀ l y, is_max (foldl Z.max y l) (y :: l)).
  { clear. induction l as [|x l IH]; intros y; simpl.
    - split; [left|]. by repeat constructor.
    - destruct (IH (y `max` x)) as [Hin Hall]. split.
      + apply elem_of_cons in Hin as [->|Hin].
        * destruct (Z.max_spec y x) as [[_ ->]|[_ ->]]; [right; left|left].
        * right; by right.
      + apply Forall_cons in Hall as [Hm Hall].
        repeat (apply Forall_cons; split); [lia..|done]. }
  apply G.
Qed.

Lemma max_element_is_Some (l : list Z) :
  l ≠ [] → is_Some (max_element l).
Proof. destruct l; [done|]. by eexists. Qed.


(** ** The staging loop and the two sorts *)

Section staging_facts.
Context {V : Type} `{!ValueOps V}.
Implicit Types (s : staging V) (it : list (Z * V)).

Lemma staging_loop_invariant it s (n : nat) :
  length (h_I s) = n → length (h_J s) = n → length (h_V s) = n →
  (nnz s + length it ≤ n)%nat →
  let s' := foldl staging_step s it in
  (nnz s' ≤ n)%nat ∧
  length (h_I s') = n ∧ length (h_J s') = n ∧ length (h_V s') = n ∧
  zip (take (nnz s') (h_I s'))
      (zip (take (nnz s') (h_J s')) (take (nnz s') (h_V s'))) =
  zip (take (nnz s) (h_I s))
      (zip (take (nnz s) (h_J s)) (take (nnz s) (h_V s))) ++ surviving it.
Proof.
  revert s. induction it as [|kv it IH]; intros s HI HJ HV Hn.
  { cbn [foldl]. cbv zeta. change (surviving []) with (@nil (Z * (Z * V))).
    rewrite app_nil_r. cbn in Hn. repeat split; [lia|done..]. }
  cbn [length] in Hn. cbn [foldl].
  destruct (key_to_row_col kv.1) as [row col] eqn:Ek.
  set (s1 := {| h_I := <[nnz s:=row]> (h_I s);
                h_J := <[nnz s:=col]> (h_J s);
                h_V := <[nnz s:=kv.2]> (h_V s); nnz := S (nnz s) |}).
  assert (Hstep : staging_step s kv =
                  if decide (kv.2 = V_zero) then s else s1).
  { unfold staging_step. by rewrite Ek. }
  rewrite Hstep. unfold surviving. rewrite filter_cons.
  destruct (decide (kv.2 = V_zero)) as [Hz|Hz].
  - rewrite decide_False by tauto.
    apply IH; [done..|lia].
  - rewrite decide_True by done.
    destruct (IH s1) as (Hn' & HI' & HJ' & HV' & Hz').
    { cbn. by rewrite length_insert. }
    { cbn. by rewrite length_insert. }
    { cbn. by rewrite length_insert. }
    { cbn. lia. }
    cbv zeta. repeat split; [done..|].
    cbv zeta in Hz'. rewrite Hz'. cbn [h_I h_J h_V nnz s1].
    rewrite !(take_S_r _ (nnz s) _)
      by (apply list_lookup_insert_eq; lia).
    rewrite !take_insert_ge by lia.
    rewrite fmap_cons, Ek. cbn [fst snd].
    rewrite (zip_with_app pair (take (nnz s) (h_J s)))
      by (rewrite !length_take; lia).
    rewrite (zip_with_app pair (take (nnz s) (h_I s)))
      by (rewrite length_zip_with, !length_take; lia).
    rewrite <- app_assoc. done.
Qed.

(** After the loop and the resize the staging arrays hold the surviving
    triplets in iteration order. *)
Lemma staging_loop_spec it :
  let s := staging_resize (foldl staging_step (staging_init (length it)) it) in
  staging_triplets s = surviving it ∧ staging_aligned s.
Proof.
  destruct (staging_loop_invariant it (staging_init (length it)) (length it))
    as (Hn & HI & HJ & HV & Hz).
  { simpl. apply length_replicate. }
  { simpl. apply length_replicate. }
  { simpl. apply length_replicate. }
  { simpl. lia. }
  simpl in Hz. split.
  - exact Hz.
  - unfold staging_aligned, staging_resize; simpl.
    rewrite !length_take. lia.
Qed.

(** The two sorts, on triplets. *)
Lemma staging_sort_spec s :
  staging_triplets (staging_sort s) =
    stable_sort (swap_keys <$> stable_sort (swap_keys <$> staging_triplets s)) ∧
  staging_aligned (staging_sort s).
Proof.
  unfold staging_triplets, staging_sort, stable_sort_by_key, staging_aligned.
  simpl.
  rewrite (zip_swap_keys (h_I s) (h_J s) (h_V s)).
  set (l1 := stable_sort (swap_keys <$> zip (h_I s) (zip (h_J s) (h_V s)))).
  rewrite (zip_projections_swapped l1).
  set (l2 := stable_sort (swap_keys <$> l1)).
  rewrite zip_projections. split; [done|].
  by rewrite !length_fmap.
Qed.

Lemma staging_sort_sorted s :
  StronglySorted (lex_key (λ p q, p.2.1 ≤ q.2.1))
    (staging_triplets (staging_sort s)).
Proof.
  destruct (staging_sort_spec s) as [-> _].
  apply stable_sort_lex.
  apply StronglySorted_fmap with (R1 := λ p q : Z * (Z * V), p.1 ≤ q.1).
  - by intros [i [j x]] [i' [j' x']].
  - apply stable_sort_sorted.
Qed.

Lemma staging_sort_Permutation s :
  staging_triplets (staging_sort s) ≡ₚ staging_triplets s.
Proof.
  destruct (staging_sort_spec s) as [-> _].
  rewrite stable_sort_Permutation, stable_sort_Permutation.
  by rewrite swap_keys_involutive.
Qed.

Lemma sorted_triplets_row_major (l : list (Z * (Z * V))) :
  StronglySorted (lex_key (λ p q, p.2.1 ≤ q.2.1)) l →
  row_major (l.*1) (l.*2.*1).
Proof.
  intros Hl a b ra rb ca cb Hab Ha Hb Hca Hcb.
  rewrite !list_lookup_fmap in Hca, Hcb.
  rewrite list_lookup_fmap in Ha, Hb.
  destruct (l !! a) as [p|] eqn:Ep; [|done].
  destruct (l !! b) as [q|] eqn:Eq; [|done].
  simpl in *. simplify_eq.
  exact (StronglySorted_lookup _ l a b p q Hl Hab Ep Eq).
Qed.

Lemma staging_triplets_projections s :
  staging_aligned s →
  (staging_triplets s).*1 = h_I s ∧
  (staging_triplets s).*2.*1 = h_J s ∧
  (staging_triplets s).*2.*2 = h_V s.
Proof.
  intros [H1 H2]. unfold staging_triplets.
  rewrite fst_zip by (rewrite length_zip_with; lia).
  rewrite snd_zip by (rewrite length_zip_with; lia).
  rewrite fst_zip by lia. rewrite snd_zip by lia. done.
Qed.

(** The two stable sorts, by column and then by row, leave the staging
    arrays in row-major order, whatever they held. *)
Lemma staging_sort_row_major s :
  row_major (h_I (staging_sort s)) (h_J (staging_sort s)).
Proof.
  destruct (staging_sort_spec s) as [_ Hal].
  destruct (staging_triplets_projections _ Hal) as (<- & <- & _).
  apply sorted_triplets_row_major, staging_sort_sorted.
Qed.
End staging_facts.

(** ** Materialization *)

Section make_matrix_facts.
Context {V : Type} `{!ValueOps V}.
Implicit Types (it : list (Z * V)) (m : coo_matrix V)
  (w : SparseMatrixWrapper V).

(** What lines 52-121 build. *)
Lemma make_coo_spec it m :
  make_coo it = Some m →
  coo_triplets m =
    stable_sort (swap_keys <$> stable_sort (swap_keys <$> surviving it)) ∧
  (coo_triplets m).*1 = row_indices m ∧
  (coo_triplets m).*2.*1 = column_indices m ∧
  (coo_triplets m).*2.*2 = values m ∧
  num_entries m = Z.of_nat (length (values m)) ∧
  ∃ mI mJ, is_max mI (row_indices m) ∧ is_max mJ (column_indices m) ∧
           num_rows m = wrap32 (mI + 1) ∧ num_cols m = wrap32 (mJ + 1).
Proof.
  unfold make_coo.
  destruct (staging_loop_spec it) as [Ht0 _]. cbv zeta in Ht0.
  generalize dependent
    (staging_resize (foldl staging_step (staging_init (length it)) it)).
  intros s0 Ht0.
  destruct (staging_sort_spec s0) as [Ht Hal]. rewrite Ht0 in Ht.
  destruct (staging_triplets_projections _ Hal) as (HI & HJ & HV).
  generalize dependent (staging_sort s0). intros s Ht Hal HI HJ HV.
  destruct (max_element (h_I s)) as [mI|] eqn:EI; [|done].
  destruct (max_element (h_J s)) as [mJ|] eqn:EJ; [|done].
  cbn [mbind option_bind]. intros [= <-]. unfold coo_triplets.
  cbn [row_indices column_indices values num_rows num_cols num_entries].
  change (zip (h_I s) (zip (h_J s) (h_V s))) with (staging_triplets s).
  rewrite HI, HJ, HV.
  repeat split; [done..|].
  exists mI, mJ. auto using max_element_is_max.
Qed.

Lemma surviving_Permutation it1 it2 :
  it1 ≡ₚ it2 → surviving it1 ≡ₚ surviving it2.
Proof. intros E. unfold surviving. by rewrite E. Qed.

Lemma make_coo_Permutation it m :
  make_coo it = Some m → coo_triplets m ≡ₚ surviving it.
Proof.
  intros Hm. destruct (make_coo_spec it m Hm) as [-> _].
  rewrite stable_sort_Permutation, stable_sort_Permutation.
  by rewrite swap_keys_involutive.
Qed.

Lemma make_coo_sorted it m :
  make_coo it = Some m →
  StronglySorted (lex_key (λ p q, p.2.1 ≤ q.2.1)) (coo_triplets m).
Proof.
  intros Hm. destruct (make_coo_spec it m Hm) as [-> _].
  apply stable_sort_lex.
  apply StronglySorted_fmap with (R1 := λ p q : Z * (Z * V), p.1 ≤ q.1).
  - by intros [i [j x]] [i' [j' x']].
  - apply stable_sort_sorted.
Qed.

Lemma make_coo_row_major it m :
  make_coo it = Some m → row_major (row_indices m) (column_indices m).
Proof.
  intros Hm. destruct (make_coo_spec _ _ Hm) as (_ & <- & <- & _).
  apply sorted_triplets_row_major. by apply (make_coo_sorted it).
Qed.

Lemma make_coo_lengths it m :
  make_coo it = Some m →
  length (row_indices m) = length (values m) ∧
  length (column_indices m) = length (values m).
Proof.
  intros Hm. destruct (make_coo_spec _ _ Hm) as (_ & <- & <- & <- & _).
  by rewrite !length_fmap.
Qed.

(** The COO part is built whenever an entry survives. *)
Lemma make_coo_is_Some it :
  surviving it ≠ [] → is_Some (make_coo it).
Proof.
  intros Hne. unfold make_coo.
  destruct (staging_loop_spec it) as [Ht0 _]. cbv zeta in Ht0.
  generalize dependent
    (staging_resize (foldl staging_step (staging_init (length it)) it)).
  intros s0 Ht0.
  destruct (staging_sort_spec s0) as [_ Hal].
  pose proof (staging_sort_Permutation s0) as Hp. rewrite Ht0 in Hp.
  destruct (staging_triplets_projections _ Hal) as (HI & HJ & HV).
  generalize dependent (staging_sort s0). intros s Hal Hp HI HJ HV.
  assert (Hlen : length (staging_triplets s) ≠ 0%nat).
  { rewrite Hp. by destruct (surviving it). }
  destruct (max_element_is_Some (h_I s)) as [mI ->].
  { rewrite <- HI. intros E. apply Hlen.
    by rewrite <- (length_fmap fst), E. }
  destruct (max_element_is_Some (h_J s)) as [mJ ->].
  { rewrite <- HJ. intros E. apply Hlen.
    by rewrite <- (length_fmap snd), <- (length_fmap fst), E. }
  by eexists.
Qed.

Lemma make_matrix_from_spec it w w' :
  make_matrix_from it w = Some w' →
  make_coo it = Some (matrix w') ∧
  make_permutation (matrix w') = Some (permutation w') ∧
  view_num_rows (matrix_t w') = num_rows (matrix w') ∧
  view_num_cols (matrix_t w') = num_cols (matrix w') ∧
  view_num_entries (matrix_t w') = num_entries (matrix w') ∧
  entries w' = ∅.
Proof.
  unfold make_matrix_from. intros H.
  destruct (make_coo it) as [m|]; [|done]. cbn in H.
  destruct (make_permutation m) as [p|] eqn:Ep; [|done]. cbn in H.
  by injection H as <-.
Qed.

(** Decoded indices are 32-bit values. *)
Lemma surviving_uint32 it :
  Forall (λ t, is_uint32 t.1 ∧ is_uint32 t.2.1) (surviving it).
Proof.
  unfold surviving. apply Forall_fmap, Forall_forall. intros kv _.
  apply key_to_row_col_uint32.
Qed.

Lemma surviving_nonzero it :
  Forall (λ t, t.2.2 ≠ V_zero) (surviving it).
Proof.
  unfold surviving. apply Forall_fmap, Forall_forall.
  by intros kv [? _]%list_elem_of_filter.
Qed.

(** Materialization completes whenever an entry survives and the largest
    column index is not the largest 32-bit value. *)
Lemma make_matrix_from_is_Some it w :
  surviving it ≠ [] →
  Forall (λ t, t.2.1 < 2 ^ 32 - 1) (surviving it) →
  is_Some (make_matrix_from it w).
Proof.
  intros Hne Hcol. destruct (make_coo_is_Some it Hne) as [m Hm].
  unfold make_matrix_from. rewrite Hm. cbn.
  destruct (make_coo_spec _ _ Hm) as (_ & _ & HJ & _ & _ & mI & mJ & _ & [HmJ Hle] & _ & Hnc).
  pose proof (make_coo_Permutation _ _ Hm) as Hp.
  assert (Hall : Forall (λ t, is_uint32 t.2.1 ∧ t.2.1 < 2 ^ 32 - 1)
                   (coo_triplets m)).
  { rewrite Hp. pose proof (surviving_uint32 it) as Hu.
    rewrite Forall_forall in Hu, Hcol |- *. intros t Ht.
    split; [by apply Hu|by apply Hcol]. }
  assert (Hcols : Forall (λ c, is_uint32 c ∧ c < 2 ^ 32 - 1) (column_indices m)).
  { rewrite <- HJ. rewrite !Forall_fmap. exact Hall. }
  assert (HmJ' : 0 ≤ mJ < 2 ^ 32 - 1).
  { rewrite Forall_forall in Hcols. destruct (Hcols _ HmJ) as [[? ?] ?]. lia. }
  unfold make_permutation, counting_sort_by_key.
  rewrite bool_decide_true; [by eexists|].
  rewrite Hnc. unfold wrap32. rewrite Z.mod_mod by lia.
  rewrite Z.mod_small by lia.
  rewrite Forall_forall in Hcols, Hle |- *. intros c Hc.
  specialize (Hle c Hc). destruct (Hcols c Hc) as [[? ?] ?]. lia.
Qed.

(** ** The entry store *)

Lemma insert_entry_keys_uint64 w row col val :
  keys_uint64 (entries w) → keys_uint64 (entries (insert_entry w row col val)).
Proof.
  intros Hk k v. cbn. rewrite lookup_insert. case_decide as E.
  - intros _. rewrite <- E. apply row_col_to_key_uint64.
  - apply Hk.
Qed.

Lemma remove_entry_keys_uint64 w row col :
  keys_uint64 (entries w) → keys_uint64 (entries (remove_entry w row col)).
Proof.
  intros Hk k v. cbn. intros [_ H]%lookup_delete_Some. by eapply Hk.
Qed.

Lemma keys_uint64_empty : keys_uint64 (∅ : gmap Z V).
Proof. intros k v. by rewrite lookup_empty. Qed.

Lemma surviving_cons (kv : Z * V) (l : list (Z * V)) :
  surviving (kv :: l) =
    if decide (kv.2 = V_zero) then surviving l
    else ((key_to_row_col kv.1).1, ((key_to_row_col kv.1).2, kv.2))
           :: surviving l.
Proof.
  unfold surviving. rewrite filter_cons.
  destruct (decide (kv.2 = V_zero)).
  - by rewrite decide_False by tauto.
  - by rewrite decide_True by done.
Qed.

(** No staged binding under another 64-bit key decodes to (r, c). *)
Lemma surviving_other_keys (l : list (Z * V)) r c :
  is_uint32 r → is_uint32 c →
  Forall (λ kv, is_uint64 kv.1 ∧ kv.1 ≠ row_col_to_key r c) l →
  filter (λ t : Z * (Z * V), t.1 = r ∧ t.2.1 = c) (surviving l) = [].
Proof.
  intros Hr Hc Hl.
  induction l as [|kv l IH]; [done|].
  apply Forall_cons in Hl as [[Hu Hne] Hl].
  rewrite surviving_cons. case_decide; [by apply IH|].
  rewrite filter_cons. rewrite decide_False; [by apply IH|].
  cbn [fst snd]. intros [E1 E2]. apply Hne.
  rewrite <- (row_col_to_key_to_row_col kv.1) by done.
  by rewrite E1, E2.
Qed.

(** The values that the matrix holds at (r, c) are decided by the binding
    of the key of (r, c) in the map. *)
Lemma entries_at_lookup (mp : gmap Z V) it m r c :
  keys_uint64 mp → is_uint32 r → is_uint32 c →
  iteration_order mp it →
  make_coo it = Some m →
  entries_at m r c =
    match mp !! row_col_to_key r c with
    | Some v => if decide (v = V_zero) then [] else [v]
    | None => []
    end.
Proof.
  intros Hk Hr Hc Hit Hm.
  pose proof (make_coo_Permutation _ _ Hm) as Hp.
  set (k := row_col_to_key r c).
  pose (P := λ t : Z * (Z * V), t.1 = r ∧ t.2.1 = c).
  assert (Hrest : Forall (λ kv, is_uint64 kv.1 ∧ kv.1 ≠ k)
                    (map_to_list (delete k mp))).
  { apply Forall_forall. intros [k' v'] Hin.
    apply elem_of_map_to_list in Hin. apply lookup_delete_Some in Hin as [? ?].
    split; [by eapply Hk|done]. }
  assert (Hfilter : filter P (coo_triplets m) ≡ₚ
            filter P (surviving (map_to_list mp))).
  { rewrite Hp. apply filter_Permutation, surviving_Permutation, Hit. }
  unfold entries_at. subst P. cbv beta in *.
  destruct (mp !! k) as [v|] eqn:Ev.
  - assert (Hl : map_to_list mp ≡ₚ (k, v) :: map_to_list (delete k mp)).
    { rewrite <- (insert_delete_id mp k v) at 1 by done.
      apply map_to_list_insert, lookup_delete_eq. }
    assert (Hs : filter (λ t : Z * (Z * V), t.1 = r ∧ t.2.1 = c)
                   (surviving (map_to_list mp)) ≡ₚ
                 filter (λ t : Z * (Z * V), t.1 = r ∧ t.2.1 = c)
                   (surviving ((k, v) :: map_to_list (delete k mp)))).
    { apply filter_Permutation, surviving_Permutation, Hl. }
    rewrite Hs in Hfilter. clear Hs.
    rewrite surviving_cons in Hfilter. cbn [fst snd] in Hfilter.
    destruct (decide (v = V_zero)) as [Hz|Hz].
    + rewrite (surviving_other_keys _ r c Hr Hc Hrest) in Hfilter.
      apply Permutation_nil_r in Hfilter. by rewrite Hfilter.
    + unfold k in Hfilter at 1 2.
      destruct (key_round_trip r c Hr Hc) as [E1 E2].
      rewrite E1, E2 in Hfilter.
      rewrite filter_cons, decide_True in Hfilter by done.
      rewrite (surviving_other_keys _ r c Hr Hc Hrest) in Hfilter.
      apply Permutation_singleton_r in Hfilter. by rewrite Hfilter.
  - assert (Hl : delete k mp = mp) by by apply delete_id.
    rewrite Hl in Hrest.
    rewrite (surviving_other_keys _ r c Hr Hc Hrest) in Hfilter.
    apply Permutation_nil_r in Hfilter. by rewrite Hfilter.
Qed.
End make_matrix_facts.

(** ** Properties of materialization *)

Section materialization_properties.
Context {V : Type} `{!ValueOps V}.
Implicit Types (it : list (Z * V)) (m : coo_matrix V)
  (w : SparseMatrixWrapper V).

(** C1. For every entry set, after materialization the triplets of the
    Compact Matrix are in canonical row-major order: along the sequence
    the row indices do not decrease and, among entries of equal row
    index, the column indices do not decrease; the triplets are the
    surviving entries, rearranged. Equivalently: a stable sort by column
    followed by a stable sort by row leaves any staging arrays in (row,
    column) lexicographic order. *)
Theorem C1_canonical_row_major_order it w w' :
  make_matrix_from it w = Some w' →
  row_major (row_indices (matrix w')) (column_indices (matrix w')) ∧
  coo_triplets (matrix w') ≡ₚ surviving it ∧
  (∀ s : staging V,
     row_major (h_I (staging_sort s)) (h_J (staging_sort s))).
Proof.
  intros (Hm & _)%make_matrix_from_spec. repeat split.
  - by apply (make_coo_row_major it).
  - by apply make_coo_Permutation.
  - apply staging_sort_row_major.
Qed.

Lemma apply_ops_keys_uint64 w (ops : list (store_op V)) :
  keys_uint64 (entries w) → keys_uint64 (entries (apply_ops w ops)).
Proof.
  revert w. induction ops as [|op ops IH]; intros w Hw; [done|].
  apply IH. destruct op.
  - by apply insert_entry_keys_uint64.
  - by apply remove_entry_keys_uint64.
Qed.

(** Calls at other coordinates leave the binding of (r, c) alone. *)
Lemma apply_ops_lookup_elsewhere w (ops : list (store_op V)) r c :
  is_uint32 r → is_uint32 c →
  Forall (elsewhere r c) ops →
  entries (apply_ops w ops) !! row_col_to_key r c =
  entries w !! row_col_to_key r c.
Proof.
  intros Hr Hc. revert w.
  induction ops as [|op ops IH]; intros w Hops; [done|].
  apply Forall_cons in Hops as [(Hr' & Hc' & Hne) Hops].
  cbn [apply_ops foldl]. fold (apply_ops (apply_op w op) ops).
  rewrite IH by done.
  assert (Hk : row_col_to_key (op_coordinate op).1 (op_coordinate op).2
               ≠ row_col_to_key r c).
  { intros E. apply Hne.
    destruct (key_round_trip _ _ Hr' Hc') as [E1 E2].
    destruct (key_round_trip _ _ Hr Hc) as [E3 E4].
    rewrite E in E1, E2. destruct (op_coordinate op) as [a b].
    cbn in *. congruence. }
  destruct op; cbn in *.
  - by rewrite lookup_insert_ne.
  - by rewrite lookup_delete_ne.
Qed.

(** C3. For every coordinate (row, col): after two inserts at (row, col)
    with values v1 and then v2, v2 non-zero, and provided no surviving
    entry has the column index 2^32 - 1 (the column count, one more than
    the largest column index, has to fit the 32-bit index type),
    materialization completes and builds a Compact Matrix with exactly
    one entry at (row, col), of value v2. *)
Theorem C3_overwrite_last_write_wins w it r c (v1 v2 : V) :
  keys_uint64 (entries w) → is_uint32 r → is_uint32 c →
  v2 ≠ V_zero →
  iteration_order
    (entries (insert_entry (insert_entry w r c v1) r c v2)) it →
  Forall (λ t, t.2.1 < 2 ^ 32 - 1) (surviving it) →
  ∃ w', make_matrix_from it
          (insert_entry (insert_entry w r c v1) r c v2) = Some w' ∧
        entries_at (matrix w') r c = [v2].
Proof.
  intros Hk Hr Hc Hv Hit Hcol.
  set (w2 := insert_entry (insert_entry w r c v1) r c v2) in *.
  assert (Hl : entries w2 !! row_col_to_key r c = Some v2)
    by apply lookup_insert_eq.
  assert (Hk2 : keys_uint64 (entries w2))
    by by do 2 apply insert_entry_keys_uint64.
  destruct (make_matrix_from_is_Some it w2) as [w' Hw']; [|done|].
  { intros E. apply surviving_Permutation in Hit. rewrite E in Hit.
    symmetry in Hit. apply Permutation_nil_r in Hit.
    rewrite <- (insert_delete_id _ _ _ Hl) in Hit.
    assert (Hp := map_to_list_insert (delete (row_col_to_key r c) (entries w2))
                    (row_col_to_key r c) v2 (lookup_delete_eq _ _)).
    apply surviving_Permutation in Hp. rewrite Hit in Hp.
    rewrite surviving_cons, decide_False in Hp by done.
    by apply Permutation_nil_cons in Hp. }
  exists w'. split; [done|].
  destruct (make_matrix_from_spec _ _ _ Hw') as [Hm _].
  rewrite (entries_at_lookup (entries w2) it (matrix w') r c) by done.
  rewrite Hl. by rewrite decide_False.
Qed.

(** C4. For every coordinate (r, c): if the last value inserted at (r, c)
    before materialization is zero, whatever the map held there before
    and whatever calls on other coordinates follow, the materialized
    Compact Matrix has no entry at (r, c); and in general no entry of a
    materialized matrix has the value zero. *)
Theorem C4_zero_filtering w (later : list (store_op V)) it r c w' :
  keys_uint64 (entries w) → is_uint32 r → is_uint32 c →
  Forall (elsewhere r c) later →
  iteration_order
    (entries (apply_ops (insert_entry w r c V_zero) later)) it →
  make_matrix_from it (apply_ops (insert_entry w r c V_zero) later)
    = Some w' →
  entries_at (matrix w') r c = [] ∧
  (∀ it0 w0 w0', make_matrix_from it0 w0 = Some w0' →
                 Forall (λ v, v ≠ V_zero) (values (matrix w0'))).
Proof.
  intros Hk Hr Hc Hlater Hit (Hm & _)%make_matrix_from_spec.
  set (w1 := apply_ops (insert_entry w r c V_zero) later) in *.
  split.
  - rewrite (entries_at_lookup (entries w1) it _ r c); [|try done..].
    + unfold w1. rewrite apply_ops_lookup_elsewhere by done.
      cbn. rewrite lookup_insert_eq. by rewrite decide_True.
    + by apply apply_ops_keys_uint64, insert_entry_keys_uint64.
  - intros it0 w0 w0' (Hm0 & _)%make_matrix_from_spec.
    destruct (make_coo_spec _ _ Hm0) as (_ & _ & _ & <- & _).
    rewrite !Forall_fmap. rewrite (make_coo_Permutation _ _ Hm0).
    apply surviving_nonzero.
Qed.

End materialization_properties.

(** ** Materialization at concrete entry sets *)

Lemma C1_canonical_row_major_order_witness :
  make_matrix_from (map_to_list (entries example_2x2)) example_2x2
    = Some example_2x2_made ∧
  (row_major (row_indices (matrix example_2x2_made))
     (column_indices (matrix example_2x2_made)) ∧
   coo_triplets (matrix example_2x2_made)
     ≡ₚ surviving (map_to_list (entries example_2x2)) ∧
   (∀ s : staging Z,
      row_major (h_I (staging_sort s)) (h_J (staging_sort s)))).
Proof.
  assert (H : make_matrix_from (map_to_list (entries example_2x2)) example_2x2
              = Some example_2x2_made) by (vm_compute; reflexivity).
  split; [exact H|].
  exact (C1_canonical_row_major_order _ _ _ H).
Defined.

Lemma overwrite_example :
  make_matrix example_overwrite = Some example_overwrite_made ∧
  entries_at (matrix example_overwrite_made) 2 3 = [7] ∧
  entries_at (matrix example_overwrite_made) 0 0 = [9].
Proof. vm_compute. done. Qed.

Lemma C3_overwrite_last_write_wins_witness :
  ∃ w', make_matrix_from (map_to_list (entries example_overwrite))
          example_overwrite = Some w' ∧
        entries_at (matrix w') 2 3 = [7].
Proof.
  assert (E : surviving (map_to_list (entries example_overwrite))
              = [(2, (3, 7)); (0, (0, 9))]) by (vm_compute; reflexivity).
  apply (C3_overwrite_last_write_wins (insert_entry example_empty 0 0 9)
           (map_to_list (entries example_overwrite)) 2 3 5 7).
  - apply insert_entry_keys_uint64, keys_uint64_empty.
  - unfold is_uint32; lia.
  - unfold is_uint32; lia.
  - cbn; lia.
  - unfold iteration_order. reflexivity.
  - rewrite E. repeat (apply Forall_cons; split; [cbn; lia|]). constructor.
Defined.

(** C3 fails when the overwritten coordinate lies in the last column the
    index type can name: the value 7 is in the store at (0, 2^32 - 1),
    the column count wraps to 0 and materialization does not complete. *)
Lemma C3_overwrite_last_write_wins_counterexample :
  let w := insert_entry
             (insert_entry (example_empty : SparseMatrixWrapper Z)
                0 4294967295 5) 0 4294967295 7 in
  entries w !! row_col_to_key 0 4294967295 = Some 7 ∧
  make_matrix w = None ∧
  ¬ (∃ w', make_matrix_from (map_to_list (entries w)) w = Some w' ∧
           entries_at (matrix w') 0 4294967295 = [7]).
Proof.
  assert (H : make_matrix_from
                (map_to_list
                   (entries (insert_entry
                      (insert_entry (example_empty : SparseMatrixWrapper Z)
                         0 4294967295 5) 0 4294967295 7)))
                (insert_entry
                   (insert_entry (example_empty : SparseMatrixWrapper Z)
                      0 4294967295 5) 0 4294967295 7) = None)
    by (vm_compute; reflexivity).
  cbv zeta. split; [vm_compute; reflexivity|]. split.
  - vm_compute; reflexivity.
  - intros (w' & Hw' & _). rewrite H in Hw'. discriminate.
Qed.

Lemma C4_zero_filtering_witness :
  make_matrix_from (map_to_list (entries example_zeroed)) example_zeroed
    = Some example_zeroed_made ∧
  (entries_at (matrix example_zeroed_made) 1 1 = [] ∧
   (∀ it0 (w0 w0' : SparseMatrixWrapper Z),
      make_matrix_from it0 w0 = Some w0' →
      Forall (λ v, v ≠ V_zero) (values (matrix w0')))).
Proof.
  assert (H : make_matrix_from (map_to_list (entries example_zeroed))
                example_zeroed = Some example_zeroed_made)
    by (vm_compute; reflexivity).
  split; [exact H|].
  apply (C4_zero_filtering (insert_entry example_empty 1 1 8)
           [Insert 0 2 6; Remove 5 5]
           (map_to_list (entries example_zeroed)) 1 1 example_zeroed_made).
  - apply insert_entry_keys_uint64, keys_uint64_empty.
  - unfold is_uint32; lia.
  - unfold is_uint32; lia.
  - repeat constructor; unfold is_uint32; cbn; try lia; congruence.
  - unfold iteration_order. reflexivity.
  - exact H.
Defined.


(** The dimension inference of the spec's example: rows {0, 3, 1} and
    columns {2, 5, 0} give a 4 x 6 matrix. *)
Lemma dimension_inference_example :
  get_num_rows <$> make_matrix example_dims = Some 4 ∧
  get_num_cols <$> make_matrix example_dims = Some 6 ∧
  get_num_entries <$> make_matrix example_dims = Some 3.
Proof. repeat split; vm_compute; reflexivity. Qed.


(** Reduction of the binds of the option monad, and nothing else. *)
Ltac obind :=
  cbn [mbind option_bind mret option_ret fmap option_fmap option_map].
Tactic Notation "obind" "in" hyp(H) :=
  cbn [mbind option_bind mret option_ret fmap option_fmap option_map] in H.

(** ** The backend product *)

Section multiply_facts.
Context {V : Type} `{!ValueOps V}.
Implicit Types (A : coo_matrix V) (x y : list V).

Lemma multiply_init_length n y y0 :
  multiply_init n y = Some y0 → length y0 = length y.
Proof.
  unfold multiply_init. case_bool_decide; [|done]. intros [= <-].
  rewrite length_app, length_replicate, length_drop. lia.
Qed.

(** When [y] has exactly [n] elements its old contents are all
    overwritten. *)
Lemma multiply_init_full n y :
  length y = n → multiply_init n y = Some (replicate n V_zero).
Proof.
  intros Hn. unfold multiply_init. rewrite bool_decide_true by lia.
  rewrite drop_ge by lia. by rewrite app_nil_r.
Qed.

Lemma multiply_entry_length A x y n y' :
  multiply_entry A x y n = Some y' → length y' = length y.
Proof.
  unfold multiply_entry. intros H.
  destruct (row_indices A !! n) as [i|]; cbn [mbind option_bind] in H; [|done].
  destruct (column_indices A !! n) as [j|]; cbn [mbind option_bind] in H; [|done].
  destruct (values A !! n) as [a|]; cbn [mbind option_bind] in H; [|done].
  destruct (x !! Z.to_nat j) as [xj|]; cbn [mbind option_bind] in H; [|done].
  destruct (y !! Z.to_nat i) as [yi|]; cbn [mbind option_bind] in H; [|done].
  injection H as <-. apply length_insert.
Qed.

Lemma multiply_loop_length A x ns y y' :
  multiply_loop A x y ns = Some y' → length y' = length y.
Proof.
  revert y. induction ns as [|n ns IH]; intros y; cbn.
  - by intros [= <-].
  - destruct (multiply_entry A x y n) as [y1|] eqn:E; [|done]. cbn.
    intros H. rewrite (IH _ H). by eapply multiply_entry_length.
Qed.

Lemma multiply_length A x y r :
  multiply A x y = Some r → length r = length y.
Proof.
  unfold multiply.
  destruct (multiply_init _ y) as [y0|] eqn:E; [|done]. cbn. intros H.
  rewrite (multiply_loop_length _ _ _ _ _ H).
  by eapply multiply_init_length.
Qed.

(** The product does not depend on the old contents of an output vector
    of [num_rows] elements. *)
Lemma multiply_output_irrelevant A x y1 y2 :
  length y1 = Z.to_nat (num_rows A) →
  length y2 = Z.to_nat (num_rows A) →
  multiply A x y1 = multiply A x y2.
Proof.
  intros H1 H2. unfold multiply.
  by rewrite !multiply_init_full by done.
Qed.

Lemma multiply_loop_is_Some A x ns y :
  coo_wf A →
  Forall (λ n, n < Z.to_nat (num_entries A))%nat ns →
  (Z.to_nat (num_cols A) ≤ length x)%nat →
  (Z.to_nat (num_rows A) ≤ length y)%nat →
  is_Some (multiply_loop A x y ns).
Proof.
  intros (HlI & HlJ & HlV & HI & HJ) Hns Hx. revert y.
  induction Hns as [|n ns Hn Hns IH]; intros y Hy; cbn; [by eexists|].
  destruct (lookup_lt_is_Some_2 (row_indices A) n) as [i Ei]; [lia|].
  destruct (lookup_lt_is_Some_2 (column_indices A) n) as [j Ej]; [lia|].
  destruct (lookup_lt_is_Some_2 (values A) n) as [a Ea]; [lia|].
  rewrite Forall_forall in HI, HJ.
  pose proof (HI i (list_elem_of_lookup_2 _ _ _ Ei)).
  pose proof (HJ j (list_elem_of_lookup_2 _ _ _ Ej)).
  destruct (lookup_lt_is_Some_2 x (Z.to_nat j)) as [xj Exj]; [lia|].
  destruct (lookup_lt_is_Some_2 y (Z.to_nat i)) as [yi Eyi]; [lia|].
  unfold multiply_entry. rewrite Ei, Ej, Ea; cbn. rewrite Exj, Eyi; cbn.
  apply IH. by rewrite length_insert.
Qed.

(** Within its contract the product is defined. *)
Lemma multiply_is_Some A x y :
  coo_wf A →
  (Z.to_nat (num_cols A) ≤ length x)%nat →
  (Z.to_nat (num_rows A) ≤ length y)%nat →
  is_Some (multiply A x y).
Proof.
  intros Hwf Hx Hy. unfold multiply.
  destruct (multiply_init (Z.to_nat (num_rows A)) y) as [y0|] eqn:E.
  - cbn. apply multiply_loop_is_Some; [done| |done|].
    + apply Forall_forall. intros n Hn.
      apply list_elem_of_lookup in Hn as [k Hk].
      apply lookup_seq in Hk. lia.
    + by rewrite (multiply_init_length _ _ _ E).
  - unfold multiply_init in E. by rewrite bool_decide_true in E by lia.
Qed.
End multiply_facts.

(** ** SpMV *)

Section SpMV_facts.
Context {V : Type} `{!ValueOps V}.
Implicit Types (w : SparseMatrixWrapper V) (σ : list (list V)).

Lemma conjugate_values_false w : conjugate_values false w = w.
Proof. unfold conjugate_values. by rewrite andb_false_r. Qed.

Lemma conjugate_values_involutive conjugate w :
  (∀ v : V, V_conj (V_conj v) = v) →
  conjugate_values conjugate (conjugate_values conjugate w) = w.
Proof.
  intros Hconj. unfold conjugate_values. destruct (V_is_complex && conjugate); [|done].
  destruct w as [[nr nc ne I J X] mt p e]; cbn. do 2 f_equal.
  rewrite <- list_fmap_compose. rewrite <- (list_fmap_id X) at 2.
  apply list_fmap_ext. intros _ v _. cbn. apply Hconj.
Qed.

(** The wrapper that [SpMV] returns, when it returns. *)
Lemma SpMV_wrapper w x y transpose conjugate σ w' σ' :
  SpMV w x y transpose conjugate σ = Some (w', σ') →
  w' = conjugate_values conjugate (conjugate_values conjugate w).
Proof.
  unfold SpMV. intros H.
  destruct (operand _ _) as [A|]; [|done]. cbn in H.
  destruct (σ !! x) as [vx|]; [|done]. cbn in H.
  destruct (if decide (x = y) then _ else _) as [σ1|]; [|done].
  cbn in H. by injection H as <- _.
Qed.

(** With the flag set, the product is the one of the conjugated
    matrix. *)
Lemma SpMV_conjugate w x y transpose σ :
  SpMV w x y transpose true σ =
  prod_map (conjugate_values true) id
    <$> SpMV (conjugate_values true w) x y transpose false σ.
Proof.
  unfold SpMV. rewrite !conjugate_values_false.
  destruct (operand _ _) as [A|]; [|done]. cbn.
  destruct (σ !! x) as [vx|]; [|done]. cbn.
  destruct (if decide (x = y) then _ else _) as [σ1|]; done.
Qed.

(** The aliased call, unfolded. *)
Lemma SpMV_aliased w x transpose conjugate σ :
  SpMV w x x transpose conjugate σ =
  A ← operand (conjugate_values conjugate w) transpose;
  vx ← σ !! x;
  r ← multiply A vx (replicate (length vx) V_zero);
  Some (conjugate_values conjugate (conjugate_values conjugate w),
        <[x := r]> σ).
Proof.
  unfold SpMV. destruct (operand _ _) as [A|]; [|done]. cbn.
  destruct (σ !! x) as [vx|]; [|done]. cbn.
  rewrite decide_True by done.
  by destruct (multiply _ _ _).
Qed.

(** The call on distinct vectors, unfolded. *)
Lemma SpMV_distinct w x y transpose conjugate σ :
  x ≠ y →
  SpMV w x y transpose conjugate σ =
  A ← operand (conjugate_values conjugate w) transpose;
  vx ← σ !! x;
  vy ← σ !! y;
  r ← multiply A vx vy;
  Some (conjugate_values conjugate (conjugate_values conjugate w),
        <[y := r]> σ).
Proof.
  intros Hne. unfold SpMV. destruct (operand _ _) as [A|]; [|done]. cbn.
  destruct (σ !! x) as [vx|]; [|done]. cbn.
  rewrite decide_False by done.
  destruct (σ !! y) as [vy|]; [|done]. cbn.
  by destruct (multiply _ _ _).
Qed.







Lemma conjugate_values_wf conjugate w :
  coo_wf (matrix w) → coo_wf (matrix (conjugate_values conjugate w)).
Proof.
  unfold conjugate_values. destruct (V_is_complex && conjugate); [|done].
  unfold coo_wf. cbn. by rewrite length_fmap.
Qed.

(** C8. Conjugation being an involution, for every matrix, complex-valued
    or not, a call of [SpMV] that returns leaves the wrapper, hence the
    stored values, the dimensions and the index sequences of its matrix,
    as they were before the call; with [conjugate = true] the product is
    the one of the matrix with conjugated values, which are conjugated
    back afterwards; and the call on the matrix itself does return when
    the matrix is well formed and the two distinct vectors have the
    elements that the dimensions ask for. *)
Theorem C8_conjugate_restores_values w x y transpose conjugate σ :
  (∀ v : V, V_conj (V_conj v) = v) →
  (∀ w' σ', SpMV w x y transpose conjugate σ = Some (w', σ') →
            w' = w ∧ values (matrix w') = values (matrix w)) ∧
  SpMV w x y transpose true σ =
    prod_map (conjugate_values true) id
      <$> SpMV (conjugate_values true w) x y transpose false σ ∧
  (∀ vx vy,
     coo_wf (matrix w) → x ≠ y →
     σ !! x = Some vx → σ !! y = Some vy →
     (Z.to_nat (num_cols (matrix w)) ≤ length vx)%nat →
     (Z.to_nat (num_rows (matrix w)) ≤ length vy)%nat →
     ∃ σ', SpMV w x y false conjugate σ = Some (w, σ')).
Proof.
  intros Hconj. split; [|split; [apply SpMV_conjugate|]].
  - intros w' σ' H. apply SpMV_wrapper in H.
    rewrite conjugate_values_involutive in H by done. by subst.
  - intros vx vy Hwf Hne Hx Hy Hlx Hly.
    apply (conjugate_values_wf conjugate) in Hwf.
    destruct (multiply_is_Some (matrix (conjugate_values conjugate w)) vx vy)
      as [r Hr]; [done|..].
    { unfold conjugate_values. by destruct (V_is_complex && conjugate). }
    { unfold conjugate_values. by destruct (V_is_complex && conjugate). }
    exists (<[y := r]> σ).
    rewrite SpMV_distinct by done. cbn [operand]. obind.
    rewrite Hx, Hy. obind. rewrite Hr. obind.
    by rewrite conjugate_values_involutive.
Qed.
End SpMV_facts.

(** ** SpMVP *)

Section SpMVP_facts.
Context {V : Type} `{!ValueOps V} `{!ValueLaws V}.
Implicit Types (w : SparseMatrixWrapper V) (σ : list (list V))
  (v : list V).

Lemma scale_length a v : length (scale a v) = length v.
Proof. apply length_fmap. Qed.

Lemma scale_one v : scale V_one v = v.
Proof.
  unfold scale. rewrite <- (list_fmap_id v) at 2.
  apply list_fmap_ext. intros _ e _. apply V_multiplies_one_r.
Qed.

Lemma scale_zero v : scale V_zero v = replicate (length v) V_zero.
Proof.
  unfold scale. induction v as [|e v IH]; [done|].
  rewrite fmap_cons, IH, V_multiplies_zero_r. done.
Qed.

Lemma zip_with_plus_zero_l v (n : nat) :
  length v = n → zip_with V_plus (replicate n V_zero) v = v.
Proof.
  intros <-. induction v as [|e v IH]; [done|].
  cbn [length replicate zip_with]. by rewrite V_plus_zero_l, IH.
Qed.

Lemma zip_with_plus_zero_r v (n : nat) :
  length v = n → zip_with V_plus v (replicate n V_zero) = v.
Proof.
  intros <-. induction v as [|e v IH]; [done|].
  cbn [length replicate zip_with]. by rewrite V_plus_zero_r, IH.
Qed.

Lemma plus_into_same_length (temp v : list V) :
  length temp = length v →
  plus_into temp v = Some (zip_with V_plus temp v).
Proof.
  intros E. unfold plus_into. rewrite bool_decide_true by lia.
  rewrite drop_ge by lia. by rewrite app_nil_r.
Qed.

Lemma scale_at_lookup a y σ v :
  σ !! y = Some v → scale_at a y σ = Some (<[y := scale a v]> σ).
Proof. intros E. unfold scale_at. by rewrite E. Qed.

(** Skipping the scaling by exactly 1 changes nothing. *)
Lemma scale_at_unless_one a y σ v :
  σ !! y = Some v →
  (if decide (a ≠ V_one) then scale_at a y σ else Some σ)
  = Some (<[y := scale a v]> σ).
Proof.
  intros E. case_decide as Ha.
  - by apply scale_at_lookup.
  - subst a. rewrite scale_one.
    by rewrite list_insert_id.
Qed.

Lemma store_push_lookup_old σ (t v : list V) (y : nat) :
  σ !! y = Some v → (σ ++ [t]) !! y = Some v.
Proof.
  intros E. rewrite lookup_app_l; [done|]. by eapply lookup_lt_Some.
Qed.

Lemma store_push_lookup_new σ (t : list V) :
  (σ ++ [t]) !! length σ = Some t.
Proof. by apply list_lookup_middle. Qed.

Lemma store_push_insert_old σ (t v : list V) (y : nat) :
  (y < length σ)%nat → <[y := v]> (σ ++ [t]) = <[y := v]> σ ++ [t].
Proof. intros. by rewrite insert_app_l. Qed.

Lemma store_push_insert_new σ (t v : list V) :
  <[length σ := v]> (σ ++ [t]) = σ ++ [v].
Proof.
  rewrite (insert_app_r_alt σ [t]) by lia. by rewrite Nat.sub_diag.
Qed.

Lemma store_push_lookup_new_at σ σ' (t : list V) :
  length σ' = length σ → (σ' ++ [t]) !! length σ = Some t.
Proof. intros <-. by apply list_lookup_middle. Qed.

Lemma store_pop σ σ' (t : list V) :
  length σ' = length σ → take (length σ) (σ' ++ [t]) = σ'.
Proof. intros <-. by rewrite take_app_length. Qed.

Lemma SpMV_Some w x y transpose conjugate σ vx vy A r :
  x ≠ y → σ !! x = Some vx → σ !! y = Some vy →
  operand (conjugate_values conjugate w) transpose = Some A →
  multiply A vx vy = Some r →
  SpMV w x y transpose conjugate σ = Some (w, <[y := r]> σ).
Proof.
  intros Hne Hx Hy HA Hr. rewrite SpMV_distinct by done.
  rewrite HA, Hx, Hy. obind. rewrite Hr. obind.
  rewrite conjugate_values_involutive; [done|apply V_conj_involutive].
Qed.

(** The scaled multiply-add on operands of compatible dimensions: [y]
    has as many elements as the operand has rows, [Ax] is the product,
    and either [beta] is zero or [x] has as many elements as [y]. The
    call leaves the wrapper as it was and [alpha * Ax + beta * y] in
    [y]. *)
Theorem SpMVP_compatible_dimensions
    w alpha x beta y transpose conjugate σ vx vy A Ax :
  x ≠ y → σ !! x = Some vx → σ !! y = Some vy →
  operand (conjugate_values conjugate w) transpose = Some A →
  length vy = Z.to_nat (num_rows A) →
  multiply A vx (replicate (length vy) V_zero) = Some Ax →
  beta = V_zero ∨ length vx = length vy →
  SpMVP w alpha x beta y transpose conjugate σ
  = Some (w, <[y := axpby alpha Ax beta vy]> σ).
Proof.
  intros Hne Hx Hy HA Hrows HAx Hdim.
  pose proof (multiply_length _ _ _ _ HAx) as HlAx.
  rewrite length_replicate in HlAx.
  pose proof (lookup_lt_Some _ _ _ Hx) as Hltx.
  pose proof (lookup_lt_Some _ _ _ Hy) as Hlty.
  unfold SpMVP, axpby. destruct (decide (beta = V_zero)) as [Hb|Hb].
  - (* y = alpha * (A * x) *)
    subst beta. rewrite scale_zero.
    rewrite zip_with_plus_zero_r by (rewrite scale_length; lia).
    destruct (decide (alpha ≠ V_zero)) as [Ha|Ha].
    + rewrite (SpMV_Some w x y transpose conjugate σ vx vy A Ax)
        by (try done; by rewrite (multiply_output_irrelevant A vx vy
              (replicate (length vy) V_zero))
              by (by rewrite ?length_replicate)).
      obind.
      rewrite (scale_at_unless_one alpha y _ Ax)
        by (by apply list_lookup_insert_eq).
      obind. by rewrite list_insert_insert_eq.
    + apply dec_stable in Ha. subst alpha. obind.
      rewrite (scale_at_unless_one V_zero y σ vy) by done. obind.
      by rewrite !scale_zero, HlAx.
  - (* temp = alpha * (A * x); y = temp + beta * y *)
    destruct Hdim as [?|Hdim]; [done|].
    rewrite Hx. obind.
    set (temp0 := replicate (length vx) V_zero).
    assert (Et : ∃ vt,
      ('(w1, σ1) ← (if decide (alpha ≠ V_zero)
                    then SpMV w x (length σ) transpose conjugate
                           (σ ++ [temp0])
                    else Some (w, σ ++ [temp0]));
       σ2 ← (if decide (alpha ≠ V_zero ∧ alpha ≠ V_one)
             then scale_at alpha (length σ) σ1 else Some σ1);
       Some (w1, σ2)) = Some (w, σ ++ [vt]) ∧
      vt = scale alpha Ax).
    { exists (scale alpha Ax). split; [|done].
      destruct (decide (alpha ≠ V_zero)) as [Ha|Ha].
      - rewrite (SpMV_Some w x (length σ) transpose conjugate
                   (σ ++ [temp0]) vx temp0 A Ax);
          [|lia|by apply store_push_lookup_old
           |by apply store_push_lookup_new|done
           |by unfold temp0; rewrite Hdim].
        obind. rewrite store_push_insert_new.
        destruct (decide (alpha ≠ V_zero ∧ alpha ≠ V_one)) as [Ha1|Ha1].
        + rewrite (scale_at_lookup alpha _ _ Ax)
            by apply store_push_lookup_new.
          obind. by rewrite store_push_insert_new.
        + assert (alpha = V_one) as ->.
          { destruct (decide (alpha = V_one)); [done|tauto]. }
          obind. by rewrite scale_one.
      - apply dec_stable in Ha. subst alpha. obind.
        rewrite decide_False by tauto. obind.
        rewrite scale_zero, HlAx. unfold temp0. by rewrite Hdim. }
    destruct Et as (vt & Et & Evt).
    destruct (if decide (alpha ≠ V_zero) then _ else _) as [[w1 σ1]|];
      [|done].
    obind in Et. obind.
    destruct (if decide (alpha ≠ V_zero ∧ alpha ≠ V_one) then _ else _)
      as [σ2|]; [|done].
    obind in Et. obind. injection Et as -> ->.
    rewrite (scale_at_unless_one beta y (σ ++ [vt]) vy)
      by (by apply store_push_lookup_old).
    obind. rewrite store_push_insert_old by done.
    rewrite store_push_lookup_new_at by (by rewrite length_insert). obind.
    rewrite (store_push_lookup_old _ _ (scale beta vy))
      by (by apply list_lookup_insert_eq).
    obind.
    rewrite plus_into_same_length
      by (rewrite Evt, !scale_length; lia).
    obind. rewrite store_push_insert_old by (by rewrite length_insert).
    rewrite list_insert_insert_eq.
    rewrite store_pop by (by rewrite length_insert).
    by rewrite Evt.
Qed.

(** The three identities of the scaled multiply-add. *)
Lemma axpby_beta_zero alpha Ax vy :
  length Ax = length vy → axpby alpha Ax V_zero vy = scale alpha Ax.
Proof.
  intros E. unfold axpby. rewrite scale_zero.
  apply zip_with_plus_zero_r. rewrite scale_length. lia.
Qed.

Lemma axpby_alpha_zero beta Ax vy :
  length Ax = length vy → axpby V_zero Ax beta vy = scale beta vy.
Proof.
  intros E. unfold axpby. rewrite scale_zero.
  apply zip_with_plus_zero_l. rewrite scale_length. lia.
Qed.

Lemma axpby_one_one Ax vy :
  axpby V_one Ax V_one vy = zip_with V_plus Ax vy.
Proof. unfold axpby. by rewrite !scale_one. Qed.

(** With [beta = 0] the prior contents of an output vector of
    [num_rows] elements do not influence the result, in exact
    arithmetic. *)
Lemma SpMVP_beta_zero_ignores_y
    w alpha x y transpose conjugate σ vx vy vy' A Ax :
  x ≠ y → σ !! x = Some vx → σ !! y = Some vy →
  operand (conjugate_values conjugate w) transpose = Some A →
  length vy = Z.to_nat (num_rows A) → length vy' = length vy →
  multiply A vx (replicate (length vy) V_zero) = Some Ax →
  SpMVP w alpha x V_zero y transpose conjugate σ
    = Some (w, <[y := scale alpha Ax]> σ) ∧
  SpMVP w alpha x V_zero y transpose conjugate (<[y := vy']> σ)
    = Some (w, <[y := scale alpha Ax]> σ).
Proof.
  intros Hne Hx Hy HA Hrows Hlen HAx.
  pose proof (multiply_length _ _ _ _ HAx) as HlAx.
  rewrite length_replicate in HlAx.
  pose proof (lookup_lt_Some _ _ _ Hy) as Hlty.
  split.
  - rewrite (SpMVP_compatible_dimensions w alpha x V_zero y transpose
               conjugate σ vx vy A Ax) by (try done; by left).
    by rewrite axpby_beta_zero.
  - rewrite (SpMVP_compatible_dimensions w alpha x V_zero y transpose
               conjugate (<[y := vy']> σ) vx vy' A Ax);
      [|done|by rewrite list_lookup_insert_ne
       |by apply list_lookup_insert_eq|done|lia
       |by rewrite Hlen|by left].
    rewrite axpby_beta_zero by lia.
    by rewrite list_insert_insert_eq.
Qed.
End SpMVP_facts.

(** ** The numeric facade at concrete operands *)


(** The aliased product of the 2 x 2 example: x = [1, 1] becomes [3, 7],
    and [4, 6] for the transpose, as in the two-step computation. The
    backend product of [x] into [x] itself, without the temporary,
    clears [x] before it reads it and leaves [0, 0]. *)
Lemma SpMV_aliased_example :
  SpMV_in_store example_2x2_made 0 0 false false [[1; 1]]
    = Some (example_2x2_made, [[3; 7]]) ∧
  SpMV example_2x2_made 0 0 false false [[1; 1]]
    = Some (example_2x2_made, [[3; 7]]) ∧
  two_step_product example_2x2_made 0 0 false false [[1; 1]]
    = Some (example_2x2_made, [[3; 7]]) ∧
  snd <$> SpMV example_2x2_made 0 0 true false [[1; 1]] = Some [[4; 6]] ∧
  snd <$> two_step_product example_2x2_made 0 0 true false [[1; 1]]
    = Some [[4; 6]] ∧
  multiply_at (matrix example_2x2_made) 0 0 [[1; 1]] = Some [[0; 0]].
Proof. repeat split; vm_compute; reflexivity. Qed.


Lemma C8_conjugate_restores_values_witness :
  (∀ v : Z * Z, V_conj (V_conj v) = v) ∧
  ((∀ w' σ',
      SpMV example_complex 0 1 false true [[(1, 0); (0, 1)]; [(5, 5); (6, 6)]]
        = Some (w', σ') →
      w' = example_complex ∧
      values (matrix w') = values (matrix example_complex)) ∧
   SpMV example_complex 0 1 false true [[(1, 0); (0, 1)]; [(5, 5); (6, 6)]] =
     prod_map (conjugate_values true) id
       <$> SpMV (conjugate_values true example_complex) 0 1 false false
             [[(1, 0); (0, 1)]; [(5, 5); (6, 6)]] ∧
   (∀ vx vy,
      coo_wf (matrix example_complex) → 0%nat ≠ 1%nat →
      [[(1, 0); (0, 1)]; [(5, 5); (6, 6)]] !! 0%nat = Some vx →
      [[(1, 0); (0, 1)]; [(5, 5); (6, 6)]] !! 1%nat = Some vy →
      (Z.to_nat (num_cols (matrix example_complex)) ≤ length vx)%nat →
      (Z.to_nat (num_rows (matrix example_complex)) ≤ length vy)%nat →
      ∃ σ', SpMV example_complex 0 1 false true
              [[(1, 0); (0, 1)]; [(5, 5); (6, 6)]]
            = Some (example_complex, σ'))).
Proof.
  assert (Hconj : ∀ v : Z * Z, V_conj (V_conj v) = v).
  { intros [a b]. cbn. f_equal. lia. }
  split; [exact Hconj|].
  exact (C8_conjugate_restores_values example_complex 0 1 false true
           [[(1, 0); (0, 1)]; [(5, 5); (6, 6)]] Hconj).
Defined.

(** The conjugated product of the complex example: the values
    1 + 2i, -i, 3 are used as 1 - 2i, i, 3 and are found unchanged after
    the call. *)
Lemma SpMV_conjugate_example :
  SpMV example_complex 0 1 false true [[(1, 0); (0, 1)]; [(5, 5); (6, 6)]]
  = Some (example_complex, [[(1, 0); (0, 1)]; [(0, -2); (0, 3)]]).
Proof. vm_compute. reflexivity. Qed.

(** C6, the code at a rectangular matrix. For the 2 x 1 matrix
    [[1], [2]], x = [1], y = [5, 5] and alpha = beta = 1 the call is to leave
    A*x + y = [6, 7]. The branch for a non-zero beta allocates [temp] with
    [x.size()] = 1 elements and lets the product, which has 2 rows, write
    into it: the call runs outside the vector and is undefined. The branch
    for beta = 0 has no such vector and yields alpha * (A*x). *)
Theorem C6_SpMVP_rectangular_matrix :
  make_matrix example_2x1 = Some example_2x1_made ∧
  multiply (matrix example_2x1_made) [1] [0; 0] = Some [1; 2] ∧
  axpby 1 [1; 2] 1 [5; 5] = [6; 7] ∧
  SpMVP example_2x1_made 1 0 1 1 false false [[1]; [5; 5]] = None ∧
  SpMVP example_2x1_made 3 0 0 1 false false [[1]; [5; 5]]
    = Some (example_2x1_made, [[1]; [3; 6]]).
Proof. repeat split; vm_compute; reflexivity. Qed.

(** With alpha = 0 and beta = 0 line 208 multiplies the prior contents of
    [y] by alpha: two runs that differ only in these contents differ in
    their result when the value type has a not-a-number. *)
Lemma SpMVP_zero_zero_reads_y :
  snd <$> SpMVP example_nan (Some 0) 0 (Some 0) 1 false false
            [[Some 1]; [Some 5]] = Some [[Some 1]; [Some 0]] ∧
  snd <$> SpMVP example_nan (Some 0) 0 (Some 0) 1 false false
            [[Some 1]; [None]] = Some [[Some 1]; [None]].
Proof. split; vm_compute; reflexivity. Qed.

(** ** The transpose view *)

(** A map that keeps the key commutes with the sort. *)
Lemma stable_insert_fmap_key {A B} (g : Z * A → B) k a (l : list (Z * A)) :
  stable_insert k (g (k, a)) ((λ p, (p.1, g p)) <$> l) =
  (λ p, (p.1, g p)) <$> stable_insert k a l.
Proof.
  induction l as [|[k' a'] l IH]; [done|].
  rewrite fmap_cons. cbn [stable_insert fst].
  case_bool_decide; [done|].
  rewrite fmap_cons. cbn [fst]. f_equal. apply IH.
Qed.

Lemma stable_sort_fmap_key {A B} (g : Z * A → B) (l : list (Z * A)) :
  stable_sort ((λ p, (p.1, g p)) <$> l) =
  (λ p, (p.1, g p)) <$> stable_sort l.
Proof.
  induction l as [|[k a] l IH]; [done|].
  rewrite fmap_cons. cbn [stable_sort fst]. rewrite IH.
  apply stable_insert_fmap_key.
Qed.

Lemma zip_fmap {A B C} (f : A → B) (g : A → C) (l : list A) :
  zip (f <$> l) (g <$> l) = (λ x, (f x, g x)) <$> l.
Proof. induction l as [|x l IH]; [done|]. rewrite !fmap_cons. cbn. by f_equal. Qed.

Lemma zip_fmap_r {A B C} (g : B → C) (l : list A) (k : list B) :
  zip l (g <$> k) = prod_map id g <$> zip l k.
Proof.
  revert k. induction l as [|x l IH]; intros [|y k]; try done.
  rewrite !fmap_cons. cbn. f_equal. apply IH.
Qed.

Lemma mapM_of_fmap {A B} (f : A → option B) (l : list A) (k : list B) :
  f <$> l = Some <$> k → mapM f l = Some k.
Proof.
  intros E. apply mapM_Some_2. revert k E.
  induction l as [|x l IH]; intros [|y k] E; try done.
  rewrite !fmap_cons in E. injection E as E1 E2.
  constructor; [done|]. by apply IH.
Qed.

Lemma counting_array_lookup {A} (base : list A) :
  (λ q : Z, base !! Z.to_nat q) <$> counting_array (length base)
  = Some <$> base.
Proof.
  unfold counting_array. rewrite <- list_fmap_compose.
  apply list_eq. intros i. rewrite !list_lookup_fmap.
  destruct (decide (i < length base)%nat) as [Hi|Hi].
  - rewrite lookup_seq_lt by done. cbn. rewrite Nat2Z.id.
    by destruct (lookup_lt_is_Some_2 base i Hi) as [b ->].
  - rewrite lookup_seq_ge by lia. by rewrite lookup_ge_None_2 by lia.
Qed.

(** Sorting the indices 0 .. n-1 along with the keys and then reading a
    sequence through the sorted indices gives what sorting the sequence
    itself along with the keys gives. *)
Lemma permuted_index_sort {A} (keys : list Z) (base : list A) :
  permuted base
    (stable_sort (zip keys (counting_array (length base)))).*2
  = Some (stable_sort (zip keys base)).*2.
Proof.
  unfold permuted. apply mapM_of_fmap.
  set (f := λ q : Z, base !! Z.to_nat q).
  transitivity ((stable_sort (zip keys (f <$> counting_array (length base)))).*2).
  - rewrite zip_fmap_r, stable_sort_fmap.
    rewrite <- !list_fmap_compose. apply list_fmap_ext. by intros _ [k q] _.
  - unfold f. rewrite counting_array_lookup.
    rewrite zip_fmap_r, stable_sort_fmap.
    rewrite <- !list_fmap_compose. apply list_fmap_ext. by intros _ [k b] _.
Qed.

Section transpose_facts.
Context {V : Type} `{!ValueOps V}.
Implicit Types (m : coo_matrix V) (w : SparseMatrixWrapper V).

(** The explicitly transposed copy of a matrix whose triplets are sorted
    on the row index: its triplets are those of the matrix with the
    indices exchanged, stably sorted on the new row index. *)
Lemma transpose_copy_spec m :
  length (row_indices m) = length (values m) →
  length (column_indices m) = length (values m) →
  StronglySorted (λ p q, p.1 ≤ q.1) (coo_triplets m) →
  let S := stable_sort (swap_keys <$> coo_triplets m) in
  row_indices (transpose_copy m) = S.*1 ∧
  column_indices (transpose_copy m) = S.*2.*1 ∧
  values (transpose_copy m) = S.*2.*2.
Proof.
  intros HlI HlJ Hs S. unfold transpose_copy.
  set (s := {| h_I := column_indices m; h_J := row_indices m;
               h_V := values m; nnz := length (values m) |}).
  destruct (staging_sort_spec s) as [Ht Hal].
  destruct (staging_triplets_projections _ Hal) as (HI & HJ & HV).
  cbn [row_indices column_indices values].
  rewrite <- HI, <- HJ, <- HV, Ht.
  assert (E : stable_sort (swap_keys <$> stable_sort
                (swap_keys <$> staging_triplets s)) = S).
  { unfold staging_triplets, s. cbn [h_I h_J h_V].
    rewrite (zip_swap_keys (row_indices m) (column_indices m) (values m)).
    fold (coo_triplets m). rewrite swap_keys_involutive.
    by rewrite (stable_sort_id (coo_triplets m)). }
  by rewrite E.
Qed.

Lemma coo_triplets_projections m :
  length (row_indices m) = length (values m) →
  length (column_indices m) = length (values m) →
  (coo_triplets m).*1 = row_indices m ∧
  (coo_triplets m).*2.*1 = column_indices m ∧
  (coo_triplets m).*2.*2 = values m.
Proof.
  intros H1 H2. unfold coo_triplets.
  rewrite fst_zip by (rewrite length_zip_with; lia).
  rewrite snd_zip by (rewrite length_zip_with; lia).
  rewrite fst_zip by lia. rewrite snd_zip by lia. done.
Qed.

(** The permutation built by the counting sort on the column indices
    makes the three sequences of the view those of the explicitly
    transposed copy. *)
Lemma permuted_transpose_copy m p :
  length (row_indices m) = length (values m) →
  length (column_indices m) = length (values m) →
  num_entries m = Z.of_nat (length (values m)) →
  StronglySorted (λ p q, p.1 ≤ q.1) (coo_triplets m) →
  make_permutation m = Some p →
  permuted (column_indices m) p = Some (row_indices (transpose_copy m)) ∧
  permuted (row_indices m) p = Some (column_indices (transpose_copy m)) ∧
  permuted (values m) p = Some (values (transpose_copy m)).
Proof.
  intros HlI HlJ Hne Hs Hp.
  destruct (transpose_copy_spec m HlI HlJ Hs) as (-> & -> & ->).
  destruct (coo_triplets_projections m HlI HlJ) as (EI & EJ & EV).
  unfold make_permutation, counting_sort_by_key in Hp.
  case_bool_decide; [|done]. cbn in Hp. injection Hp as <-.
  rewrite Hne, Nat2Z.id.
  set (T := coo_triplets m) in *.
  assert (Ekey : ∀ {B} (b : Z * (Z * V) → B),
    (stable_sort (zip (column_indices m) (b <$> T))).*2
    = (λ p, b (swap_keys p)) <$> stable_sort (swap_keys <$> T)).
  { intros B b. rewrite <- EJ.
    rewrite <- (list_fmap_compose snd fst T).
    rewrite (zip_fmap (fst ∘ snd) b T).
    transitivity ((stable_sort ((λ p, (p.1, b (swap_keys p)))
                                  <$> (swap_keys <$> T))).*2).
    - do 2 f_equal. rewrite <- list_fmap_compose.
      apply list_fmap_ext. by intros _ [i [j x]] _.
    - rewrite stable_sort_fmap_key. rewrite <- list_fmap_compose.
      apply list_fmap_ext. by intros _ [i [j x]] _. }
  repeat split.
  - rewrite <- HlJ. rewrite permuted_index_sort. f_equal.
    replace (zip (column_indices m) (column_indices m))
      with (zip (column_indices m) ((fst ∘ snd) <$> T))
      by (by rewrite list_fmap_compose, EJ).
    rewrite (Ekey _ (fst ∘ snd)). apply list_fmap_ext.
    by intros _ [i [j x]] _.
  - rewrite <- HlI. rewrite permuted_index_sort. f_equal.
    rewrite <- EI. rewrite (Ekey _ fst).
    rewrite <- list_fmap_compose. apply list_fmap_ext.
    by intros _ [i [j x]] _.
  - rewrite permuted_index_sort. f_equal.
    replace (zip (column_indices m) (values m))
      with (zip (column_indices m) ((snd ∘ snd) <$> T))
      by (by rewrite list_fmap_compose, EV).
    rewrite (Ekey _ (snd ∘ snd)).
    rewrite <- list_fmap_compose. apply list_fmap_ext.
    by intros _ [i [j x]] _.
Qed.

Lemma transpose_copy_row_major m :
  row_major (row_indices (transpose_copy m))
    (column_indices (transpose_copy m)).
Proof. apply staging_sort_row_major. Qed.

Lemma transpose_copy_Permutation m :
  length (row_indices m) = length (values m) →
  length (column_indices m) = length (values m) →
  StronglySorted (λ p q, p.1 ≤ q.1) (coo_triplets m) →
  coo_triplets (transpose_copy m) ≡ₚ swap_keys <$> coo_triplets m.
Proof.
  intros HlI HlJ Hs.
  destruct (transpose_copy_spec m HlI HlJ Hs) as (EI & EJ & EV).
  unfold coo_triplets at 1. rewrite EI, EJ, EV, zip_projections.
  apply stable_sort_Permutation.
Qed.

(** After materialization the view holds, entry for entry, the triplets
    of the explicitly transposed copy of the matrix, in the same
    row-major order; the dimensions it declares are those of the matrix
    itself. *)
Theorem transpose_view_spec it w w' :
  make_matrix_from it w = Some w' →
  matrix_t_view w' =
    Some (with_dimensions (transpose_copy (matrix w'))
            (num_rows (matrix w')) (num_cols (matrix w'))).
Proof.
  intros Hw.
  destruct (make_matrix_from_spec _ _ _ Hw)
    as (Hm & Hp & Hvr & Hvc & Hve & _).
  destruct (make_coo_lengths _ _ Hm) as [HlI HlJ].
  destruct (make_coo_spec _ _ Hm) as (_ & _ & _ & _ & Hne & _).
  assert (Hs : StronglySorted (λ p q, p.1 ≤ q.1) (coo_triplets (matrix w'))).
  { eapply StronglySorted_mono; [|by apply (make_coo_sorted it)].
    intros p q. apply lex_key_le. }
  destruct (permuted_transpose_copy _ _ HlI HlJ Hne Hs Hp) as (E1 & E2 & E3).
  unfold matrix_t_view. rewrite E1, E2, E3. obind.
  by rewrite Hvr, Hvc, Hve.
Qed.

(** For a matrix with as many rows as columns the view is the explicitly
    transposed copy, and the transposed product is the product by that
    copy. *)
Theorem transpose_view_square it w w' :
  make_matrix_from it w = Some w' →
  num_rows (matrix w') = num_cols (matrix w') →
  operand w' true = Some (transpose_copy (matrix w')).
Proof.
  intros Hw Hsq. cbn [operand]. rewrite (transpose_view_spec it w w' Hw).
  f_equal. unfold with_dimensions, transpose_copy. cbn. by rewrite Hsq.
Qed.
End transpose_facts.

(** C2, the code at rectangular matrices. For the 1 x 3 matrix [[1, 2, 3]]
    the explicitly transposed copy is 3 x 1 and its product with x = [1]
    is [1, 2, 3]. The view holds the same triplets but declares the
    dimensions 1 x 3 of the matrix itself (line 127), so the backend
    clears only the first element of the output: with [7, 7, 7] in [y]
    before the call, [SpMV] with [transpose = true] leaves [1, 9, 10]. For
    the 3 x 1 matrix [[1], [2], [3]] the view declares 3 rows for a product
    of one element, and the call runs outside of [y]. *)
Theorem C2_transpose_view_rectangular_matrix :
  make_matrix example_1x3 = Some example_1x3_made ∧
  matrix_t_view example_1x3_made =
    Some (with_dimensions (transpose_copy (matrix example_1x3_made)) 1 3) ∧
  num_rows (transpose_copy (matrix example_1x3_made)) = 3 ∧
  num_cols (transpose_copy (matrix example_1x3_made)) = 1 ∧
  multiply (transpose_copy (matrix example_1x3_made)) [1] [7; 7; 7]
    = Some [1; 2; 3] ∧
  snd <$> SpMV example_1x3_made 0 1 true false [[1]; [7; 7; 7]]
    = Some [[1]; [1; 9; 10]] ∧
  make_matrix example_3x1 = Some example_3x1_made ∧
  multiply (transpose_copy (matrix example_3x1_made)) [1; 1; 1] [7]
    = Some [6] ∧
  SpMV example_3x1_made 0 1 true false [[1; 1; 1]; [7]] = None.
Proof. repeat split; vm_compute; reflexivity. Qed.

(** On the square example the transposed product is the product by the
    transposed copy: [[1, 2], [3, 4]] transposed times [1, 1] is [4, 6]. *)
Lemma SpMV_transpose_example :
  operand example_2x2_made true
    = Some (transpose_copy (matrix example_2x2_made)) ∧
  snd <$> SpMV example_2x2_made 0 1 true false [[1; 1]; [9; 9]]
    = Some [[1; 1]; [4; 6]] ∧
  multiply (transpose_copy (matrix example_2x2_made)) [1; 1] [9; 9]
    = Some [4; 6].
Proof. repeat split; vm_compute; reflexivity. Qed.

(** ** Independence of the iteration order of the map *)

Section iteration_order_facts.
Context {V : Type} `{!ValueOps V}.
Implicit Types (it : list (Z * V)) (mp : gmap Z V).

Lemma make_coo_unfold it :
  make_coo it =
  coo_of_triplets
    (stable_sort (swap_keys <$> stable_sort (swap_keys <$> surviving it))).
Proof.
  unfold make_coo, coo_of_triplets.
  destruct (staging_loop_spec it) as [Ht0 _]. cbv zeta in Ht0.
  generalize dependent
    (staging_resize (foldl staging_step (staging_init (length it)) it)).
  intros s0 Ht0.
  destruct (staging_sort_spec s0) as [Ht Hal]. rewrite Ht0 in Ht.
  destruct (staging_triplets_projections _ Hal) as (HI & HJ & HV).
  rewrite <- Ht, HI, HJ, HV. done.
Qed.

(** Two surviving triplets of the same map with the same coordinate are
    the same triplet. *)
Lemma surviving_functional mp (t1 t2 : Z * (Z * V)) :
  keys_uint64 mp →
  t1 ∈ surviving (map_to_list mp) → t2 ∈ surviving (map_to_list mp) →
  t1.1 = t2.1 → t1.2.1 = t2.2.1 → t1 = t2.
Proof.
  intros Hk H1 H2 Er Ec. unfold surviving in H1, H2.
  apply list_elem_of_fmap in H1 as ([k1 v1] & -> & H1).
  apply list_elem_of_fmap in H2 as ([k2 v2] & -> & H2).
  apply list_elem_of_filter in H1 as [_ H1].
  apply list_elem_of_filter in H2 as [_ H2].
  apply elem_of_map_to_list in H1, H2. cbn [fst snd] in *.
  assert (k1 = k2) as ->.
  { apply key_to_row_col_inj; [by eapply Hk..|].
    destruct (key_to_row_col k1), (key_to_row_col k2). cbn in *. congruence. }
  congruence.
Qed.

(** Whatever order the map is iterated in, the same matrix is built. *)
Theorem make_coo_iteration_order mp it1 it2 :
  keys_uint64 mp →
  iteration_order mp it1 → iteration_order mp it2 →
  make_coo it1 = make_coo it2.
Proof.
  intros Hk H1 H2. rewrite !make_coo_unfold. f_equal.
  set (R := lex_key (λ p q : Z * (Z * V), p.2.1 ≤ q.2.1)).
  assert (Hsorted : ∀ it,
    StronglySorted R
      (stable_sort (swap_keys <$> stable_sort (swap_keys <$> surviving it)))).
  { intros it. apply stable_sort_lex.
    apply StronglySorted_fmap with (R1 := λ p q : Z * (Z * V), p.1 ≤ q.1).
    - by intros [i [j x]] [i' [j' x']].
    - apply stable_sort_sorted. }
  assert (Hperm : ∀ it, iteration_order mp it →
    stable_sort (swap_keys <$> stable_sort (swap_keys <$> surviving it))
    ≡ₚ surviving (map_to_list mp)).
  { intros it Hit. rewrite stable_sort_Permutation, stable_sort_Permutation.
    rewrite swap_keys_involutive. by apply surviving_Permutation. }
  apply (StronglySorted_unique_strong R); [|apply Hsorted|apply Hsorted|].
  - intros t1 t2 Ht1 Ht2 [Hlt|[Er Hc]] [Hlt'|[Er' Hc']]; try lia.
    rewrite (Hperm it1 H1) in Ht1. rewrite (Hperm it2 H2) in Ht2.
    apply (surviving_functional mp); [done..|lia].
  - by rewrite (Hperm it1 H1), (Hperm it2 H2).
Qed.

Corollary make_matrix_iteration_order (w : SparseMatrixWrapper V) it :
  keys_uint64 (entries w) → iteration_order (entries w) it →
  make_matrix_from it w = make_matrix w.
Proof.
  intros Hk Hit. unfold make_matrix, make_matrix_from.
  rewrite (make_coo_iteration_order (entries w) it
             (map_to_list (entries w))); [done..|].
  unfold iteration_order. reflexivity.
Qed.
End iteration_order_facts.

(** * Further properties of the code *)

(** ** The key codec, both ways *)

(** X1. Every 64-bit key is the key of the pair it decodes to, and the two
    decoded indices are 32-bit values: with the round trip of 32-bit pairs,
    [row_col_to_key] and [key_to_row_col] are inverse bijections between
    pairs of 32-bit indices and 64-bit keys, and decoding is injective. *)
Theorem X1_key_decode_encode (key : Z) :
  is_uint64 key →
  row_col_to_key (key_to_row_col key).1 (key_to_row_col key).2 = key ∧
  is_uint32 (key_to_row_col key).1 ∧ is_uint32 (key_to_row_col key).2 ∧
  (∀ key', is_uint64 key' →
     key_to_row_col key = key_to_row_col key' → key = key').
Proof.
  intros Hk. split; [by apply row_col_to_key_to_row_col|].
  destruct (key_to_row_col_uint32 key) as [H1 H2].
  repeat split; try apply H1; try apply H2.
  intros key' Hk'. by apply key_to_row_col_inj.
Qed.

Lemma X1_key_decode_encode_witness :
  is_uint64 18446744073709551615 ∧
  (row_col_to_key (key_to_row_col 18446744073709551615).1
     (key_to_row_col 18446744073709551615).2 = 18446744073709551615 ∧
   is_uint32 (key_to_row_col 18446744073709551615).1 ∧
   is_uint32 (key_to_row_col 18446744073709551615).2 ∧
   (∀ key', is_uint64 key' →
      key_to_row_col 18446744073709551615 = key_to_row_col key' →
      18446744073709551615 = key')).
Proof.
  assert (H : is_uint64 18446744073709551615) by (unfold is_uint64; lia).
  split; [exact H|]. exact (X1_key_decode_encode _ H).
Defined.

(** X2. On 32-bit indices the packed key orders coordinates by row first
    and by column among equal rows. *)
Theorem X2_key_order (row col row' col' : Z) :
  is_uint32 row → is_uint32 col → is_uint32 row' → is_uint32 col' →
  (row_col_to_key row col < row_col_to_key row' col' ↔
   row < row' ∨ (row = row' ∧ col < col')).
Proof.
  intros Hr Hc Hr' Hc'. rewrite !row_col_to_key_spec by done.
  unfold is_uint32 in *. change (2 ^ 32) with 4294967296 in *. lia.
Qed.

Lemma X2_key_order_witness :
  row_col_to_key 1 4294967295 < row_col_to_key 2 0 ↔
  1 < 2 ∨ (1 = 2 ∧ 4294967295 < 0).
Proof. apply X2_key_order; unfold is_uint32; lia. Defined.

(** ** The entry store *)

Section entry_store_properties.
Context {V : Type} `{!ValueOps V}.
Implicit Types (w : SparseMatrixWrapper V).

Lemma wrapper_eq w1 w2 :
  matrix w1 = matrix w2 → matrix_t w1 = matrix_t w2 →
  permutation w1 = permutation w2 → entries w1 = entries w2 → w1 = w2.
Proof. destruct w1, w2. cbn. by intros -> -> -> ->. Qed.

Lemma row_col_to_key_ne (r1 c1 r2 c2 : Z) :
  is_uint32 r1 → is_uint32 c1 → is_uint32 r2 → is_uint32 c2 →
  (r1, c1) ≠ (r2, c2) → row_col_to_key r1 c1 ≠ row_col_to_key r2 c2.
Proof.
  intros H1 H2 H3 H4 Hne E. apply Hne.
  destruct (key_round_trip r1 c1 H1 H2) as [E1 E2].
  destruct (key_round_trip r2 c2 H3 H4) as [E3 E4].
  rewrite E in E1, E2. congruence.
Qed.

(** X3. Inserting twice at one coordinate is inserting the last value, and
    inserts at two distinct coordinates (32-bit indices) give the same
    store in either order: only the last write per coordinate matters,
    not the interleaving of the calls. *)
Theorem X3_insert_overwrites_and_commutes w r1 c1 r2 c2 (v1 v2 : V) :
  is_uint32 r1 → is_uint32 c1 → is_uint32 r2 → is_uint32 c2 →
  insert_entry (insert_entry w r1 c1 v1) r1 c1 v2 = insert_entry w r1 c1 v2 ∧
  ((r1, c1) ≠ (r2, c2) →
   insert_entry (insert_entry w r1 c1 v1) r2 c2 v2 =
   insert_entry (insert_entry w r2 c2 v2) r1 c1 v1).
Proof.
  intros H1 H2 H3 H4. split.
  - apply wrapper_eq; try done. cbn. apply insert_insert_eq.
  - intros Hne. apply wrapper_eq; try done. cbn.
    apply insert_insert_ne. by apply row_col_to_key_ne.
Qed.

(** X4. [remove_entry] undoes an insert at a coordinate the store did not
    hold, does nothing at a coordinate the store does not hold, and after
    it the store has no binding for the coordinate while the bindings of
    all other coordinates (32-bit indices) are as before. *)
Theorem X4_remove_entry w r c r' c' (v : V) :
  is_uint32 r → is_uint32 c → is_uint32 r' → is_uint32 c' →
  entries (remove_entry w r c) !! row_col_to_key r c = None ∧
  ((r', c') ≠ (r, c) →
   entries (remove_entry w r c) !! row_col_to_key r' c'
   = entries w !! row_col_to_key r' c') ∧
  (entries w !! row_col_to_key r c = None →
   remove_entry w r c = w ∧ remove_entry (insert_entry w r c v) r c = w).
Proof.
  intros Hr Hc Hr' Hc'. repeat split.
  - cbn. apply lookup_delete_eq.
  - intros Hne. cbn. apply lookup_delete_ne.
    apply not_eq_sym. by apply row_col_to_key_ne.
  - apply wrapper_eq; try done. cbn. by apply delete_id.
  - apply wrapper_eq; try done. cbn.
    rewrite delete_insert_eq. by apply delete_id.
Qed.
End entry_store_properties.

Lemma X3_insert_overwrites_and_commutes_witness :
  insert_entry (insert_entry example_empty 2 3 5) 2 3 7
    = insert_entry example_empty 2 3 7 ∧
  ((2, 3) ≠ (0, 4294967295) →
   insert_entry (insert_entry example_empty 2 3 5) 0 4294967295 7 =
   insert_entry (insert_entry example_empty 0 4294967295 7) 2 3 5).
Proof.
  apply (X3_insert_overwrites_and_commutes example_empty 2 3 0 4294967295 5 7);
    unfold is_uint32; lia.
Defined.

Lemma X4_remove_entry_witness :
  entries (remove_entry example_2x2 5 5) !! row_col_to_key 5 5 = None ∧
  ((0, 1) ≠ (5, 5) →
   entries (remove_entry example_2x2 5 5) !! row_col_to_key 0 1
   = entries example_2x2 !! row_col_to_key 0 1) ∧
  (entries example_2x2 !! row_col_to_key 5 5 = None →
   remove_entry example_2x2 5 5 = example_2x2 ∧
   remove_entry (insert_entry example_2x2 5 5 9) 5 5 = example_2x2).
Proof.
  apply (X4_remove_entry example_2x2 5 5 0 1 9); unfold is_uint32; lia.
Defined.

(** ** Materialization: what is built, and when *)

Section materialization_extras.
Context {V : Type} `{!ValueOps V}.
Implicit Types (it : list (Z * V)) (m : coo_matrix V)
  (w : SparseMatrixWrapper V) (mp : gmap Z V).

(** When [make_matrix] completes, the largest column index is below
    2^32 - 1 and [num_cols] is one more: the counting sort was given a
    bound that covers every column index. *)
Lemma make_matrix_from_columns_fit it w w' :
  make_matrix_from it w = Some w' →
  ∃ mJ, is_max mJ (column_indices (matrix w')) ∧ 0 ≤ mJ < 2 ^ 32 - 1 ∧
        num_cols (matrix w') = mJ + 1.
Proof.
  intros Hw.
  destruct (make_matrix_from_spec _ _ _ Hw) as (Hm & Hp & _).
  destruct (make_coo_spec _ _ Hm)
    as (_ & _ & HJ & _ & _ & mI & mJ & _ & HmJ & _ & Hnc).
  pose proof (make_coo_Permutation _ _ Hm) as Hperm.
  assert (Hu : is_uint32 mJ).
  { destruct HmJ as [Hin _]. rewrite <- HJ in Hin.
    apply list_elem_of_fmap in Hin as (p & -> & Hin).
    apply list_elem_of_fmap in Hin as (t & -> & Hin).
    rewrite Hperm in Hin. pose proof (surviving_uint32 it) as Hall.
    rewrite Forall_forall in Hall. by destruct (Hall _ Hin). }
  exists mJ. unfold is_uint32 in Hu.
  unfold make_permutation, counting_sort_by_key in Hp.
  case_bool_decide as Hb; [|done].
  rewrite Forall_forall in Hb. destruct HmJ as [Hin Hle].
  specialize (Hb mJ Hin). rewrite Hnc in Hb. unfold wrap32 in Hb, Hnc.
  rewrite Z.mod_mod in Hb by lia.
  destruct (decide (mJ = 2 ^ 32 - 1)) as [->|Hne].
  - exfalso. change ((2 ^ 32 - 1 + 1) mod 2 ^ 32) with 0 in Hb. lia.
  - rewrite Z.mod_small in Hnc by lia. repeat split; try done; lia.
Qed.

Lemma make_matrix_from_Some_surviving it w :
  is_Some (make_matrix_from it w) →
  surviving it ≠ [] ∧ Forall (λ t, t.2.1 < 2 ^ 32 - 1) (surviving it).
Proof.
  intros [w' Hw].
  destruct (make_matrix_from_columns_fit _ _ _ Hw)
    as (mJ & [Hin Hle] & HmJ & _).
  destruct (make_matrix_from_spec _ _ _ Hw) as (Hm & _).
  destruct (make_coo_spec _ _ Hm) as (_ & _ & HJ & _).
  pose proof (make_coo_Permutation _ _ Hm) as Hperm.
  split.
  - intros E. rewrite E in Hperm. apply Permutation_nil_r in Hperm.
    rewrite <- HJ, Hperm in Hin. by apply elem_of_nil in Hin.
  - rewrite <- Hperm. rewrite <- HJ in Hle. rewrite !Forall_fmap in Hle.
    eapply Forall_impl; [exact Hle|]. intros t Ht. cbn in Ht. lia.
Qed.

(** X7. [make_matrix] completes exactly when at least one staged value is
    non-zero and no surviving column index is the largest 32-bit value:
    on an empty store, or one that holds only zeros, the maximum of an
    empty range is dereferenced; with a column index 2^32 - 1 the column
    count wraps to 0 and the counting sort is given a bound below its
    keys. *)
Theorem X7_make_matrix_defined it w :
  is_Some (make_matrix_from it w) ↔
  surviving it ≠ [] ∧ Forall (λ t, t.2.1 < 2 ^ 32 - 1) (surviving it).
Proof.
  split; [apply make_matrix_from_Some_surviving|].
  intros [H1 H2]. by apply make_matrix_from_is_Some.
Qed.

(** The coordinates of the surviving entries of a map are distinct. *)
Lemma surviving_coordinates_NoDup mp :
  keys_uint64 mp →
  NoDup ((λ t : Z * (Z * V), (t.1, t.2.1)) <$> surviving (map_to_list mp)).
Proof.
  intros Hk. unfold surviving. rewrite <- list_fmap_compose.
  apply NoDup_fmap_2_strong; [|apply NoDup_filter, NoDup_map_to_list].
  intros [k1 v1] [k2 v2] [_ H1]%list_elem_of_filter [_ H2]%list_elem_of_filter E.
  apply elem_of_map_to_list in H1, H2.
  unfold compose in E. cbn [fst snd] in E. injection E as E1 E2.
  assert (k1 = k2) as ->.
  { apply key_to_row_col_inj; [by eapply Hk..|].
    unfold key_to_row_col. by rewrite E1, E2. }
  congruence.
Qed.

Lemma StronglySorted_strict (l : list (Z * (Z * V))) :
  StronglySorted (lex_key (λ p q, p.2.1 ≤ q.2.1)) l →
  NoDup ((λ t : Z * (Z * V), (t.1, t.2.1)) <$> l) →
  StronglySorted (lex_key (λ p q, p.2.1 < q.2.1)) l.
Proof.
  induction 1 as [|x l Hl IH Hx]; intros Hnd; [constructor|].
  rewrite fmap_cons in Hnd. apply NoDup_cons in Hnd as [Hnin Hnd].
  constructor; [by apply IH|].
  rewrite Forall_forall in Hx |- *. intros q Hq.
  destruct (Hx q Hq) as [Hlt|[Er Hc]]; [by left|]. right. split; [done|].
  destruct (decide (x.2.1 = q.2.1)) as [Ec|Ec]; [|lia].
  exfalso. apply Hnin. apply list_elem_of_fmap. exists q. split; [|done].
  by rewrite Er, Ec.
Qed.

(** X9. The store being a map, the materialized matrix holds every
    coordinate at most once: its triplets are in strict row-major order
    (among equal row indices the column indices increase strictly) and
    the pairs of row and column index are pairwise distinct. *)
Theorem X9_coordinates_distinct mp it w w' :
  keys_uint64 mp → iteration_order mp it →
  make_matrix_from it w = Some w' →
  StronglySorted (lex_key (λ p q, p.2.1 < q.2.1)) (coo_triplets (matrix w')) ∧
  NoDup (zip (row_indices (matrix w')) (column_indices (matrix w'))).
Proof.
  intros Hk Hit Hw.
  destruct (make_matrix_from_spec _ _ _ Hw) as (Hm & _).
  destruct (make_coo_spec _ _ Hm) as (_ & HI & HJ & _).
  pose proof (make_coo_Permutation _ _ Hm) as Hperm.
  assert (Hnd : NoDup ((λ t : Z * (Z * V), (t.1, t.2.1))
                         <$> coo_triplets (matrix w'))).
  { rewrite Hperm, (surviving_Permutation _ _ Hit).
    by apply surviving_coordinates_NoDup. }
  split.
  - apply StronglySorted_strict; [by apply (make_coo_sorted it)|done].
  - rewrite <- HI, <- HJ. rewrite <- (list_fmap_compose snd fst).
    by rewrite (zip_fmap fst (fst ∘ snd)).
Qed.

(** X6. The materialized matrix is the store without its zeros: at every
    coordinate (32-bit indices) it holds the value bound to the key of the
    coordinate when that value is non-zero, and nothing otherwise; and
    every triplet it holds is a non-zero binding of the store. *)
Theorem X6_matrix_is_store_without_zeros w it w' :
  keys_uint64 (entries w) → iteration_order (entries w) it →
  make_matrix_from it w = Some w' →
  (∀ r c, is_uint32 r → is_uint32 c →
     entries_at (matrix w') r c =
       match entries w !! row_col_to_key r c with
       | Some v => if decide (v = V_zero) then [] else [v]
       | None => []
       end) ∧
  (∀ r c v, (r, (c, v)) ∈ coo_triplets (matrix w') →
     is_uint32 r ∧ is_uint32 c ∧ v ≠ V_zero ∧
     entries w !! row_col_to_key r c = Some v).
Proof.
  intros Hk Hit Hw.
  destruct (make_matrix_from_spec _ _ _ Hw) as (Hm & _).
  split.
  - intros r c Hr Hc. by apply (entries_at_lookup (entries w) it).
  - intros r c v Hin.
    rewrite (make_coo_Permutation _ _ Hm) in Hin.
    rewrite (surviving_Permutation _ _ Hit) in Hin.
    unfold surviving in Hin.
    apply list_elem_of_fmap in Hin as ([k v'] & E & Hin).
    apply list_elem_of_filter in Hin as [Hnz Hin].
    apply elem_of_map_to_list in Hin. cbn [fst snd] in *.
    destruct (key_to_row_col_uint32 k) as [H1 H2].
    assert (Ek := row_col_to_key_to_row_col k (Hk _ _ Hin)).
    assert (Er : r = (key_to_row_col k).1) by congruence.
    assert (Ec : c = (key_to_row_col k).2) by congruence.
    assert (Ev : v = v') by congruence.
    rewrite Er, Ec, Ev, Ek. done.
Qed.

(** X5. After [remove_entry] at (r, c), whatever the store held there and
    whatever calls on other coordinates follow, the materialized matrix
    has no entry at (r, c). *)
Theorem X5_removed_entry_is_absent w (later : list (store_op V)) it r c w' :
  keys_uint64 (entries w) → is_uint32 r → is_uint32 c →
  Forall (elsewhere r c) later →
  iteration_order (entries (apply_ops (remove_entry w r c) later)) it →
  make_matrix_from it (apply_ops (remove_entry w r c) later) = Some w' →
  entries_at (matrix w') r c = [].
Proof.
  intros Hk Hr Hc Hlater Hit (Hm & _)%make_matrix_from_spec.
  rewrite (entries_at_lookup _ it _ r c
             (apply_ops_keys_uint64 _ later (remove_entry_keys_uint64 w r c Hk))
             Hr Hc Hit Hm).
  rewrite apply_ops_lookup_elsewhere by done.
  cbn. by rewrite lookup_delete_eq.
Qed.

(** X10. [make_matrix] counts the non-zero bindings: [num_entries] and the
    length of each of the three sequences is the number of surviving
    bindings, those whose value is not zero, hence at most the size of the
    store; and the store is empty afterwards. *)
Theorem X10_num_entries it w w' :
  make_matrix_from it w = Some w' →
  get_num_entries w' = Z.of_nat (length (surviving it)) ∧
  length (row_indices (matrix w')) = length (surviving it) ∧
  length (column_indices (matrix w')) = length (surviving it) ∧
  length (values (matrix w')) = length (surviving it) ∧
  (0 < length (surviving it) ≤ length it)%nat ∧
  entries w' = ∅.
Proof.
  intros Hw.
  destruct (make_matrix_from_spec _ _ _ Hw) as (Hm & _ & _ & _ & _ & He).
  destruct (make_coo_spec _ _ Hm) as (_ & HI & HJ & HV & Hne & _).
  destruct (make_coo_lengths _ _ Hm) as [HlI HlJ].
  pose proof (make_coo_Permutation _ _ Hm) as Hperm.
  assert (Hlen : length (values (matrix w')) = length (surviving it)).
  { by rewrite <- HV, !length_fmap, Hperm. }
  assert (Hpos : surviving it ≠ []).
  { apply (make_matrix_from_Some_surviving it w). by eexists. }
  unfold get_num_entries. rewrite Hne, HlI, HlJ, Hlen.
  repeat split; try done.
  - destruct (surviving it); [done|]. cbn. lia.
  - unfold surviving. rewrite length_fmap. apply length_filter.
Qed.

(** X11. When no surviving row index is the largest 32-bit value, the
    materialized matrix is well formed: its three sequences have
    [num_entries] elements, every row index is below [num_rows] and every
    column index below [num_cols]. *)
Theorem X11_matrix_well_formed it w w' :
  make_matrix_from it w = Some w' →
  Forall (λ t, t.1 < 2 ^ 32 - 1) (surviving it) →
  coo_wf (matrix w').
Proof.
  intros Hw Hrows.
  destruct (make_matrix_from_columns_fit _ _ _ Hw)
    as (mJ & [_ HleJ] & HmJ & Hnc).
  destruct (make_matrix_from_spec _ _ _ Hw) as (Hm & _).
  destruct (make_coo_spec _ _ Hm)
    as (_ & HI & HJ & _ & Hne & mI & _ & [HinI HleI] & _ & Hnr & _).
  destruct (make_coo_lengths _ _ Hm) as [HlI HlJ].
  pose proof (make_coo_Permutation _ _ Hm) as Hperm.
  pose proof (surviving_uint32 it) as Hu.
  assert (Hall : Forall (λ t : Z * (Z * V),
                   0 ≤ t.1 < 2 ^ 32 - 1 ∧ 0 ≤ t.2.1)
                   (coo_triplets (matrix w'))).
  { rewrite Hperm. rewrite Forall_forall in Hu, Hrows |- *. intros t Ht.
    destruct (Hu t Ht) as [[? ?] [? ?]]. specialize (Hrows t Ht). lia. }
  assert (HmI : 0 ≤ mI < 2 ^ 32 - 1).
  { rewrite <- HI in HinI. apply list_elem_of_fmap in HinI as (t & -> & Ht).
    rewrite Forall_forall in Hall. by destruct (Hall t Ht). }
  unfold coo_wf. rewrite Hne, Nat2Z.id.
  repeat split; try done.
  - rewrite Hnr. unfold wrap32. rewrite Z.mod_small by lia.
    rewrite <- HI in HleI |- *. rewrite Forall_fmap in HleI |- *.
    rewrite Forall_forall in HleI, Hall |- *. intros t Ht.
    specialize (HleI t Ht). destruct (Hall t Ht) as [? _]. cbn in *. lia.
  - rewrite Hnc. rewrite <- HJ in HleJ |- *. rewrite !Forall_fmap in HleJ |- *.
    rewrite Forall_forall in HleJ, Hall |- *. intros t Ht.
    specialize (HleJ t Ht). destruct (Hall t Ht) as [_ ?]. cbn in *. lia.
Qed.

(** X8. The outcome of [make_matrix] depends on the bindings of the store
    only: neither on the order in which the map is iterated nor on the
    matrix, view and permutation that the wrapper held before, which are
    replaced. *)
Theorem X8_make_matrix_order_independent mp it1 it2 w1 w2 :
  keys_uint64 mp →
  iteration_order mp it1 → iteration_order mp it2 →
  make_matrix_from it1 w1 = make_matrix_from it2 w2.
Proof.
  intros Hk H1 H2. unfold make_matrix_from.
  by rewrite (make_coo_iteration_order mp it1 it2).
Qed.
End materialization_extras.

(** ** Materialization of the examples *)

Lemma example_2x2_keys : keys_uint64 (entries example_2x2).
Proof. apply apply_ops_keys_uint64, keys_uint64_empty. Qed.

Lemma example_2x2_materialized :
  make_matrix_from (map_to_list (entries example_2x2)) example_2x2
  = Some example_2x2_made.
Proof. vm_compute. reflexivity. Qed.

Lemma X5_removed_entry_is_absent_witness :
  make_matrix_from (map_to_list (entries example_removed)) example_removed
    = Some example_removed_made ∧
  entries_at (matrix example_removed_made) 1 0 = [].
Proof.
  assert (H : make_matrix_from (map_to_list (entries example_removed))
                example_removed = Some example_removed_made)
    by (vm_compute; reflexivity).
  split; [exact H|].
  apply (X5_removed_entry_is_absent example_2x2 [Insert 0 2 6]
           (map_to_list (entries example_removed)) 1 0 example_removed_made).
  - exact example_2x2_keys.
  - unfold is_uint32; lia.
  - unfold is_uint32; lia.
  - repeat constructor; unfold is_uint32; cbn; try lia; congruence.
  - unfold iteration_order. reflexivity.
  - exact H.
Defined.

Lemma X6_matrix_is_store_without_zeros_witness :
  (∀ r c, is_uint32 r → is_uint32 c →
     entries_at (matrix example_zeroed_made) r c =
       match entries example_zeroed !! row_col_to_key r c with
       | Some v => if decide (v = V_zero) then [] else [v]
       | None => []
       end) ∧
  (∀ r c v, (r, (c, v)) ∈ coo_triplets (matrix example_zeroed_made) →
     is_uint32 r ∧ is_uint32 c ∧ v ≠ V_zero ∧
     entries example_zeroed !! row_col_to_key r c = Some v).
Proof.
  apply (X6_matrix_is_store_without_zeros (ValueOps0 := Z_ops)
           example_zeroed
           (map_to_list (entries example_zeroed)) example_zeroed_made).
  - apply apply_ops_keys_uint64. do 2 apply insert_entry_keys_uint64.
    apply keys_uint64_empty.
  - unfold iteration_order. reflexivity.
  - vm_compute. reflexivity.
Defined.

(** Undefined materializations: the empty store, a store of zeros, and a
    store with an entry in the last column that a 32-bit index can
    address. *)
Lemma make_matrix_undefined_examples :
  make_matrix example_empty = None ∧
  make_matrix (insert_entry example_empty 3 4 0) = None ∧
  make_matrix (insert_entry example_empty 0 4294967295 3) = None.
Proof. repeat split; vm_compute; reflexivity. Qed.

Lemma X8_make_matrix_order_independent_witness :
  make_matrix_from (map_to_list (entries example_2x2)) example_2x2
  = make_matrix_from example_2x2_ascending example_dims_made.
Proof.
  apply (X8_make_matrix_order_independent (entries example_2x2)).
  - exact example_2x2_keys.
  - unfold iteration_order. reflexivity.
  - unfold iteration_order.
    exact (reverse_Permutation
             [(4294967297, 4); (4294967296, 3); (1, 2); (0, 1)]).
Defined.

Lemma X9_coordinates_distinct_witness :
  StronglySorted (lex_key (λ p q, p.2.1 < q.2.1))
    (coo_triplets (matrix example_2x2_made)) ∧
  NoDup (zip (row_indices (matrix example_2x2_made))
           (column_indices (matrix example_2x2_made))).
Proof.
  apply (X9_coordinates_distinct (entries example_2x2)
           (map_to_list (entries example_2x2)) example_2x2 example_2x2_made).
  - exact example_2x2_keys.
  - unfold iteration_order. reflexivity.
  - exact example_2x2_materialized.
Defined.

Lemma X10_num_entries_witness :
  get_num_entries example_zeroed_made
    = Z.of_nat (length (surviving (map_to_list (entries example_zeroed)))) ∧
  length (row_indices (matrix example_zeroed_made))
    = length (surviving (map_to_list (entries example_zeroed))) ∧
  length (column_indices (matrix example_zeroed_made))
    = length (surviving (map_to_list (entries example_zeroed))) ∧
  length (values (matrix example_zeroed_made))
    = length (surviving (map_to_list (entries example_zeroed))) ∧
  (0 < length (surviving (map_to_list (entries example_zeroed)))
     ≤ length (map_to_list (entries example_zeroed)))%nat ∧
  entries example_zeroed_made = ∅.
Proof.
  assert (H : make_matrix_from (map_to_list (entries example_zeroed))
                example_zeroed = Some example_zeroed_made)
    by (vm_compute; reflexivity).
  exact (X10_num_entries (ValueOps0 := Z_ops) _ _ _ H).
Defined.

Lemma X11_matrix_well_formed_witness : coo_wf (matrix example_dims_made).
Proof.
  apply (X11_matrix_well_formed (map_to_list (entries example_dims))
           example_dims example_dims_made).
  - vm_compute. reflexivity.
  - assert (E : surviving (map_to_list (entries example_dims))
                 = [(3, (5, 2)); (1, (0, 3)); (0, (2, 1))])
      by (vm_compute; reflexivity).
    rewrite E. repeat (apply Forall_cons; split; [cbn; lia|]).
    constructor.
Defined.

(** ** The permutation, the view, and reset *)

Section view_and_reset.
Context {V : Type} `{!ValueOps V}.
Implicit Types (it : list (Z * V)) (m : coo_matrix V)
  (w : SparseMatrixWrapper V) (σ : list (list V)).

Lemma stable_sort_by_key_values (keys : list Z) (idx : list Z) :
  length idx = length keys →
  (stable_sort_by_key keys idx).2 ≡ₚ idx.
Proof.
  intros Hl. unfold stable_sort_by_key. cbn [snd].
  rewrite stable_sort_Permutation. by rewrite snd_zip by lia.
Qed.

Lemma make_matrix_from_permutation it w w' :
  make_matrix_from it w = Some w' →
  permutation w' ≡ₚ counting_array (Z.to_nat (get_num_entries w')) ∧
  (0 < length (permutation w'))%nat.
Proof.
  intros Hw.
  destruct (make_matrix_from_spec _ _ _ Hw) as (Hm & Hp & _).
  destruct (make_coo_spec _ _ Hm) as (_ & _ & _ & _ & Hne & _).
  destruct (make_coo_lengths _ _ Hm) as [_ HlJ].
  destruct (make_matrix_from_Some_surviving it w) as [Hsurv _];
    [by eexists|].
  pose proof (make_coo_Permutation _ _ Hm) as Hperm.
  unfold make_permutation, counting_sort_by_key in Hp.
  case_bool_decide; [|done]. cbn [mbind option_bind] in Hp.
  injection Hp as <-. unfold get_num_entries.
  assert (Hlen : length (counting_array (Z.to_nat (num_entries (matrix w'))))
                 = length (column_indices (matrix w'))).
  { unfold counting_array. rewrite length_fmap, length_seq, Hne, Nat2Z.id.
    by rewrite HlJ. }
  pose proof (stable_sort_by_key_values (column_indices (matrix w')) _ Hlen)
    as Hpp.
  split; [exact Hpp|]. rewrite Hpp, Hlen.
  destruct (make_coo_spec _ _ Hm) as (_ & _ & HJ & _).
  rewrite <- HJ, !length_fmap, Hperm.
  destruct (surviving it); [done|]. cbn. lia.
Qed.

(** X12. After materialization the permutation is a rearrangement of
    0, ..., num_entries - 1, and the three sequences that the view reads
    through it are those of the transposed copy of the matrix: the
    triplets of the matrix with row and column index exchanged, in
    row-major order. The dimensions that the view declares are those of
    the matrix, not exchanged. *)
Theorem X12_transpose_view it w w' :
  make_matrix_from it w = Some w' →
  permutation w' ≡ₚ counting_array (Z.to_nat (get_num_entries w')) ∧
  matrix_t_view w' =
    Some (with_dimensions (transpose_copy (matrix w'))
            (num_rows (matrix w')) (num_cols (matrix w'))) ∧
  coo_triplets (transpose_copy (matrix w'))
    ≡ₚ swap_keys <$> coo_triplets (matrix w') ∧
  row_major (row_indices (transpose_copy (matrix w')))
    (column_indices (transpose_copy (matrix w'))).
Proof.
  intros Hw.
  destruct (make_matrix_from_spec _ _ _ Hw) as (Hm & _).
  destruct (make_coo_lengths _ _ Hm) as [HlI HlJ].
  repeat split.
  - by destruct (make_matrix_from_permutation _ _ _ Hw).
  - by apply (transpose_view_spec it w).
  - apply transpose_copy_Permutation; [done..|].
    eapply StronglySorted_mono; [|by apply (make_coo_sorted it)].
    intros p q. apply lex_key_le.
  - apply transpose_copy_row_major.
Qed.

(** X13. For a materialized matrix with as many rows as columns, [SpMV]
    with [transpose = true] on two distinct vectors is the product by the
    explicitly transposed copy of the matrix, written to [y]. *)
Theorem X13_transposed_product_square it w w' x y σ :
  make_matrix_from it w = Some w' →
  num_rows (matrix w') = num_cols (matrix w') →
  x ≠ y →
  SpMV w' x y true false σ =
  (vx ← σ !! x;
   vy ← σ !! y;
   r ← multiply (transpose_copy (matrix w')) vx vy;
   Some (w', <[y := r]> σ)).
Proof.
  intros Hw Hsq Hne. rewrite SpMV_distinct by done.
  rewrite !conjugate_values_false.
  by rewrite (transpose_view_square it w w' Hw Hsq).
Qed.

(** X14. [reset] leaves a 0 x 0 matrix without entries and an empty store,
    keeps the view and the permutation that the wrapper held, and is
    idempotent; a materialization that follows it directly is undefined,
    as there is no entry to take a maximum of. *)
Theorem X14_reset w :
  get_num_rows (reset w) = 0 ∧ get_num_cols (reset w) = 0 ∧
  get_num_entries (reset w) = 0 ∧
  entries (reset w) = ∅ ∧
  matrix_t (reset w) = matrix_t w ∧ permutation (reset w) = permutation w ∧
  reset (reset w) = reset w ∧
  (∀ it, iteration_order (entries (reset w)) it →
         make_matrix_from it (reset w) = None).
Proof.
  repeat split. intros it Hit. unfold iteration_order in Hit. cbn in Hit.
  rewrite map_to_list_empty in Hit. apply Permutation_nil_r in Hit.
  by subst it.
Qed.

(** X15. [reset] does not rebuild the view: after a materialization and a
    reset the permutation still has [num_entries] elements while the
    matrix has none, so that the view reads outside the matrix and [SpMV]
    with [transpose = true] is undefined. *)
Theorem X15_view_stale_after_reset it w w' x y conjugate σ :
  make_matrix_from it w = Some w' →
  matrix_t_view (reset w') = None ∧
  SpMV (reset w') x y true conjugate σ = None.
Proof.
  intros Hw. destruct (make_matrix_from_permutation _ _ _ Hw) as [_ Hpos].
  assert (Hview : ∀ w0, permutation w0 = permutation w' →
                        column_indices (matrix w0) = [] →
                        matrix_t_view w0 = None).
  { intros w0 Hp Hc. unfold matrix_t_view, permuted. rewrite Hp, Hc.
    destruct (permutation w') as [|p ps]; [cbn in Hpos; lia|].
    rewrite (mapM_None_2 (λ q : Z, ([] : list Z) !! Z.to_nat q) (p :: ps));
      [done|].
    apply Exists_cons_hd. apply lookup_nil. }
  split.
  - by apply Hview.
  - unfold SpMV. cbn [operand]. rewrite Hview; [done| |].
    + unfold conjugate_values. by destruct (V_is_complex && conjugate).
    + unfold conjugate_values. by destruct (V_is_complex && conjugate).
Qed.

(** X16. A materialization takes the store as it is at that moment: on a
    wrapper whose store is empty (as after construction, after
    [make_matrix] and after [reset]) one insert of a non-zero value at
    (r, c), with c below 2^32 - 1, followed by [make_matrix] gives the
    matrix with that single entry, whatever matrix the wrapper held. *)
Theorem X16_rematerialization w r c (v : V) :
  entries w = ∅ → is_uint32 r → is_uint32 c → c < 2 ^ 32 - 1 →
  v ≠ V_zero →
  make_matrix (insert_entry w r c v) =
  Some {| matrix := {| num_rows := wrap32 (r + 1); num_cols := c + 1;
                       num_entries := 1;
                       row_indices := [r]; column_indices := [c];
                       values := [v] |};
          matrix_t := {| view_num_rows := wrap32 (r + 1);
                         view_num_cols := c + 1;
                         view_num_entries := 1 |};
          permutation := [0];
          entries := ∅ |}.
Proof.
  intros He Hr Hc Hc' Hv. unfold make_matrix.
  assert (Hl : map_to_list (entries (insert_entry w r c v))
               = [(row_col_to_key r c, v)]).
  { cbn [entries insert_entry]. rewrite He, insert_empty.
    apply map_to_list_singleton. }
  rewrite Hl. unfold make_matrix_from. rewrite make_coo_unfold.
  rewrite surviving_cons. cbn [fst snd]. rewrite decide_False by done.
  destruct (key_round_trip r c Hr Hc) as [-> ->].
  change (surviving []) with (@nil (Z * (Z * V))).
  assert (Hw : wrap32 (c + 1) = c + 1).
  { unfold wrap32, is_uint32 in *. apply Z.mod_small. lia. }
  cbn. rewrite Hw. unfold make_permutation, counting_sort_by_key. cbn.
  rewrite Hw, bool_decide_true; [done|].
  repeat constructor; unfold is_uint32 in *; lia.
Qed.
End view_and_reset.

Lemma X12_transpose_view_witness :
  permutation example_removed_made
    ≡ₚ counting_array (Z.to_nat (get_num_entries example_removed_made)) ∧
  matrix_t_view example_removed_made =
    Some (with_dimensions (transpose_copy (matrix example_removed_made))
            (num_rows (matrix example_removed_made))
            (num_cols (matrix example_removed_made))) ∧
  coo_triplets (transpose_copy (matrix example_removed_made))
    ≡ₚ swap_keys <$> coo_triplets (matrix example_removed_made) ∧
  row_major (row_indices (transpose_copy (matrix example_removed_made)))
    (column_indices (transpose_copy (matrix example_removed_made))).
Proof.
  apply (X12_transpose_view (map_to_list (entries example_removed))
           example_removed example_removed_made).
  vm_compute. reflexivity.
Defined.

Lemma X13_transposed_product_square_witness :
  SpMV example_2x2_made 0 1 true false [[1; 1]; [9; 9]] =
  (vx ← [[1; 1]; [9; 9]] !! 0%nat;
   vy ← [[1; 1]; [9; 9]] !! 1%nat;
   r ← multiply (transpose_copy (matrix example_2x2_made)) vx vy;
   Some (example_2x2_made, <[1%nat := r]> [[1; 1]; [9; 9]])).
Proof.
  apply (X13_transposed_product_square (map_to_list (entries example_2x2))
           example_2x2 example_2x2_made 0 1 [[1; 1]; [9; 9]]).
  - exact example_2x2_materialized.
  - reflexivity.
  - lia.
Defined.

Lemma X15_view_stale_after_reset_witness :
  matrix_t_view (reset example_2x2_made) = None ∧
  SpMV (reset example_2x2_made) 0 1 true false [[1; 1]; [9; 9]] = None.
Proof.
  apply (X15_view_stale_after_reset (map_to_list (entries example_2x2))
           example_2x2 example_2x2_made).
  exact example_2x2_materialized.
Defined.

Lemma X16_rematerialization_witness :
  make_matrix (insert_entry example_2x2_made 5 7 3) =
  Some {| matrix := {| num_rows := wrap32 (5 + 1); num_cols := 7 + 1;
                       num_entries := 1;
                       row_indices := [5]; column_indices := [7];
                       values := [3] |};
          matrix_t := {| view_num_rows := wrap32 (5 + 1);
                         view_num_cols := 7 + 1;
                         view_num_entries := 1 |};
          permutation := [0];
          entries := ∅ |}.
Proof.
  apply (X16_rematerialization example_2x2_made 5 7 3).
  - reflexivity.
  - unfold is_uint32; lia.
  - unfold is_uint32; lia.
  - lia.
  - cbn; lia.
Defined.

(** ** The numeric facade: what a call changes *)

Section facade_frames.
Context {V : Type} `{!ValueOps V}.
Implicit Types (w : SparseMatrixWrapper V) (σ : list (list V)).

Lemma SpMV_output w x y transpose conjugate σ w' σ' :
  SpMV w x y transpose conjugate σ = Some (w', σ') →
  ∃ vy r, σ !! y = Some vy ∧ σ' = <[y := r]> σ ∧ length r = length vy.
Proof.
  destruct (decide (x = y)) as [<-|Hne].
  - rewrite SpMV_aliased. intros H.
    destruct (operand _ _) as [A|]; [|done]. obind in H.
    destruct (σ !! x) as [vx|] eqn:Hx; [|done]. obind in H.
    destruct (multiply A vx _) as [r|] eqn:Hr; [|done]. obind in H.
    injection H as _ <-. exists vx, r. repeat split; try done.
    apply multiply_length in Hr. by rewrite length_replicate in Hr.
  - rewrite SpMV_distinct by done. intros H.
    destruct (operand _ _) as [A|]; [|done]. obind in H.
    destruct (σ !! x) as [vx|] eqn:Hx; [|done]. obind in H.
    destruct (σ !! y) as [vy|] eqn:Hy; [|done]. obind in H.
    destruct (multiply A vx vy) as [r|] eqn:Hr; [|done]. obind in H.
    injection H as _ <-. exists vy, r. repeat split; try done.
    by apply multiply_length in Hr.
Qed.

(** X17. A call of [SpMV] that returns changes nothing but the contents of
    the vector at [y], which keeps its number of elements: the store has
    as many vectors as before, every other vector, [x] included when it is
    distinct from [y], is as before. *)
Theorem X17_SpMV_frame w x y transpose conjugate σ w' σ' :
  SpMV w x y transpose conjugate σ = Some (w', σ') →
  length σ' = length σ ∧
  (∀ z, z ≠ y → σ' !! z = σ !! z) ∧
  (∃ vy r, σ !! y = Some vy ∧ σ' !! y = Some r ∧ length r = length vy).
Proof.
  intros H. destruct (SpMV_output _ _ _ _ _ _ _ _ H) as (vy & r & Hy & -> & Hl).
  repeat split.
  - apply length_insert.
  - intros z Hz. by apply list_lookup_insert_ne.
  - exists vy, r. repeat split; try done.
    apply list_lookup_insert_eq. by eapply lookup_lt_Some.
Qed.

Lemma plus_into_length (temp v r : list V) :
  plus_into temp v = Some r → length r = length v.
Proof.
  unfold plus_into. case_bool_decide as Hle; [|done]. intros [= <-].
  rewrite length_app, length_zip_with, length_drop. lia.
Qed.

Lemma scale_at_optional (P : Prop) `{!Decision P} a y σ σ' (v : list V) :
  σ !! y = Some v →
  (if decide P then scale_at a y σ else Some σ) = Some σ' →
  ∃ v', σ' = <[y := v']> σ ∧ length v' = length v.
Proof.
  intros Hy. destruct (decide P).
  - unfold scale_at. rewrite Hy. obind. intros [= <-].
    exists (scale a v). split; [done|]. apply length_fmap.
  - intros [= <-]. exists v. by rewrite list_insert_id.
Qed.

(** X18. A call of [SpMVP] that returns changes nothing but the contents
    of the vector at [y], which keeps its number of elements; the
    temporary of the branch for a non-zero [beta] does not remain in the
    store. *)
Theorem X18_SpMVP_frame w alpha x beta y transpose conjugate σ vy w' σ' :
  σ !! y = Some vy →
  SpMVP w alpha x beta y transpose conjugate σ = Some (w', σ') →
  length σ' = length σ ∧
  (∀ z, z ≠ y → σ' !! z = σ !! z) ∧
  (∃ r, σ' !! y = Some r ∧ length r = length vy).
Proof.
  intros Hy H.
  pose proof (lookup_lt_Some _ _ _ Hy) as Hlty.
  assert (Hout : ∃ r, σ' = <[y := r]> σ ∧ length r = length vy).
  { unfold SpMVP in H. destruct (decide (beta = V_zero)) as [Hb|Hb].
    - assert (H1 : ∃ w1 σ1 v1,
        (if decide (alpha ≠ V_zero)
         then SpMV w x y transpose conjugate σ else Some (w, σ))
        = Some (w1, σ1) ∧ σ1 = <[y := v1]> σ ∧ length v1 = length vy).
      { destruct (decide (alpha ≠ V_zero)).
        - destruct (SpMV w x y transpose conjugate σ) as [[w1 σ1]|] eqn:E;
            [|done].
          destruct (SpMV_output _ _ _ _ _ _ _ _ E) as (vy0 & r & Hy0 & -> & Hl).
          exists w1, (<[y := r]> σ), r. repeat split; congruence.
        - exists w, σ, vy. by rewrite list_insert_id. }
      destruct H1 as (w1 & σ1 & v1 & E1 & -> & Hl1). rewrite E1 in H.
      obind in H.
      destruct (if decide (alpha ≠ V_one) then _ else _) as [σ2|] eqn:E2;
        [|done].
      obind in H. injection H as _ <-.
      apply (scale_at_optional _ _ _ _ _ v1) in E2 as (v2 & -> & Hl2);
        [|by apply list_lookup_insert_eq].
      exists v2. rewrite list_insert_insert_eq. split; [done|lia].
    - destruct (σ !! x) as [vx|] eqn:Hx; [|done]. obind in H.
      set (temp0 := replicate (length vx) V_zero) in H.
      assert (H1 : ∃ w1 a,
        (if decide (alpha ≠ V_zero)
         then SpMV w x (length σ) transpose conjugate (σ ++ [temp0])
         else Some (w, σ ++ [temp0])) = Some (w1, σ ++ [a])).
      { destruct (decide (alpha ≠ V_zero)).
        - destruct (SpMV w x (length σ) transpose conjugate (σ ++ [temp0]))
            as [[w1 σ1]|] eqn:E; [|done].
          destruct (SpMV_output _ _ _ _ _ _ _ _ E) as (t & r & _ & -> & _).
          exists w1, r. by rewrite store_push_insert_new.
        - by exists w, temp0. }
      destruct H1 as (w1 & a & E1). rewrite E1 in H. obind in H.
      destruct (if decide (alpha ≠ V_zero ∧ alpha ≠ V_one) then _ else _)
        as [σ2|] eqn:E2; [|done].
      obind in H.
      apply (scale_at_optional _ _ _ _ _ a) in E2 as (b & -> & _);
        [|by apply store_push_lookup_new].
      rewrite store_push_insert_new in H.
      destruct (if decide (beta ≠ V_one) then _ else _) as [σ3|] eqn:E3;
        [|done].
      obind in H.
      apply (scale_at_optional _ _ _ _ _ vy) in E3 as (c & -> & Hlc);
        [|by apply store_push_lookup_old].
      rewrite store_push_insert_old in H by done.
      rewrite store_push_lookup_new_at in H by (by rewrite length_insert).
      obind in H.
      rewrite (store_push_lookup_old _ _ c) in H
        by (by apply list_lookup_insert_eq).
      obind in H.
      destruct (plus_into b c) as [r|] eqn:Er; [|done]. obind in H.
      injection H as _ <-.
      rewrite store_push_insert_old by (by rewrite length_insert).
      rewrite list_insert_insert_eq.
      rewrite store_pop by (by rewrite length_insert).
      exists r. split; [done|]. apply plus_into_length in Er. lia. }
  destruct Hout as (r & -> & Hl). repeat split.
  - apply length_insert.
  - intros z Hz. by apply list_lookup_insert_ne.
  - exists r. split; [by apply list_lookup_insert_eq|done].
Qed.
End facade_frames.

Lemma X17_SpMV_frame_witness :
  SpMV example_2x2_made 0 1 false false [[1; 1]; [9; 9]; [5]]
    = Some (example_2x2_made, [[1; 1]; [3; 7]; [5]]) ∧
  (length [[1; 1]; [3; 7]; [5]] = length [[1; 1]; [9; 9]; [5]] ∧
   (∀ z, z ≠ 1%nat →
      [[1; 1]; [3; 7]; [5]] !! z = [[1; 1]; [9; 9]; [5]] !! z) ∧
   (∃ vy r, [[1; 1]; [9; 9]; [5]] !! 1%nat = Some vy ∧
            [[1; 1]; [3; 7]; [5]] !! 1%nat = Some r ∧
            length r = length vy)).
Proof.
  assert (H : SpMV example_2x2_made 0 1 false false [[1; 1]; [9; 9]; [5]]
              = Some (example_2x2_made, [[1; 1]; [3; 7]; [5]]))
    by (vm_compute; reflexivity).
  split; [exact H|]. exact (X17_SpMV_frame _ _ _ _ _ _ _ _ H).
Defined.

Lemma X18_SpMVP_frame_witness :
  [[1; 1]; [9; 9]; [5]] !! 1%nat = Some [9; 9] ∧
  SpMVP example_2x2_made 2 0 3 1 false false [[1; 1]; [9; 9]; [5]]
    = Some (example_2x2_made, [[1; 1]; [33; 41]; [5]]) ∧
  (length [[1; 1]; [33; 41]; [5]] = length [[1; 1]; [9; 9]; [5]] ∧
   (∀ z, z ≠ 1%nat →
      [[1; 1]; [33; 41]; [5]] !! z = [[1; 1]; [9; 9]; [5]] !! z) ∧
   (∃ r, [[1; 1]; [33; 41]; [5]] !! 1%nat = Some r ∧
         length r = length [9; 9])).
Proof.
  assert (H : SpMVP example_2x2_made 2 0 3 1 false false
                [[1; 1]; [9; 9]; [5]]
              = Some (example_2x2_made, [[1; 1]; [33; 41]; [5]]))
    by (vm_compute; reflexivity).
  split; [reflexivity|]. split; [exact H|].
  exact (X18_SpMVP_frame example_2x2_made 2 0 3 1 false false
           [[1; 1]; [9; 9]; [5]] [9; 9] _ _ eq_refl H).
Defined.

(** ** The scaled multiply-add on operands of compatible sizes *)

Section SpMVP_extras.
Context {V : Type} `{!ValueOps V} `{!ValueLaws V}.
Implicit Types (w : SparseMatrixWrapper V) (σ : list (list V)).

(** The branch for a non-zero [beta], also for [x] and [y] at the same
    address. *)
Lemma SpMVP_beta_nonzero
    w alpha x beta y transpose conjugate σ vx vy A Ax :
  σ !! x = Some vx → σ !! y = Some vy →
  operand (conjugate_values conjugate w) transpose = Some A →
  length vx = length vy →
  multiply A vx (replicate (length vx) V_zero) = Some Ax →
  beta ≠ V_zero →
  SpMVP w alpha x beta y transpose conjugate σ
  = Some (w, <[y := axpby alpha Ax beta vy]> σ).
Proof.
  intros Hx Hy HA Hdim HAx Hb.
  pose proof (multiply_length _ _ _ _ HAx) as HlAx.
  rewrite length_replicate in HlAx.
  pose proof (lookup_lt_Some _ _ _ Hx) as Hltx.
  pose proof (lookup_lt_Some _ _ _ Hy) as Hlty.
  unfold SpMVP, axpby. rewrite decide_False by done.
  rewrite Hx. obind.
  set (temp0 := replicate (length vx) V_zero).
  assert (Et :
    ('(w1, σ1) ← (if decide (alpha ≠ V_zero)
                  then SpMV w x (length σ) transpose conjugate
                         (σ ++ [temp0])
                  else Some (w, σ ++ [temp0]));
     σ2 ← (if decide (alpha ≠ V_zero ∧ alpha ≠ V_one)
           then scale_at alpha (length σ) σ1 else Some σ1);
     Some (w1, σ2)) = Some (w, σ ++ [scale alpha Ax])).
  { destruct (decide (alpha ≠ V_zero)) as [Ha|Ha].
    - rewrite (SpMV_Some w x (length σ) transpose conjugate
                 (σ ++ [temp0]) vx temp0 A Ax);
        [|lia|by apply store_push_lookup_old
         |by apply store_push_lookup_new|done|done].
      obind. rewrite store_push_insert_new.
      destruct (decide (alpha ≠ V_zero ∧ alpha ≠ V_one)) as [Ha1|Ha1].
      + rewrite (scale_at_lookup alpha _ _ Ax)
          by apply store_push_lookup_new.
        obind. by rewrite store_push_insert_new.
      + assert (alpha = V_one) as ->.
        { destruct (decide (alpha = V_one)); [done|tauto]. }
        obind. by rewrite scale_one.
    - apply dec_stable in Ha. subst alpha. obind.
      rewrite decide_False by tauto. obind.
      by rewrite scale_zero, HlAx. }
  destruct (if decide (alpha ≠ V_zero) then _ else _) as [[w1 σ1]|];
    [|done].
  obind in Et. obind.
  destruct (if decide (alpha ≠ V_zero ∧ alpha ≠ V_one) then _ else _)
    as [σ2|]; [|done].
  obind in Et. obind. injection Et as -> ->.
  rewrite (scale_at_unless_one beta y (σ ++ [scale alpha Ax]) vy)
    by (by apply store_push_lookup_old).
  obind. rewrite store_push_insert_old by done.
  rewrite store_push_lookup_new_at by (by rewrite length_insert). obind.
  rewrite (store_push_lookup_old _ _ (scale beta vy))
    by (by apply list_lookup_insert_eq).
  obind.
  rewrite plus_into_same_length by (rewrite !scale_length; lia).
  obind. rewrite store_push_insert_old by (by rewrite length_insert).
  rewrite list_insert_insert_eq.
  by rewrite store_pop by (by rewrite length_insert).
Qed.

(** X19. In exact arithmetic, for two distinct vectors, an output [y] of
    as many elements as the operand has rows, and either [beta = 0] or an
    input [x] of as many elements as [y], [SpMVP] leaves the wrapper as
    it was and [alpha * Ax + beta * y] in [y], where [Ax] is the product;
    this is [alpha * Ax] for [beta = 0], [beta * y] for [alpha = 0] and
    [Ax + y] for [alpha = beta = 1]. *)
Theorem X19_SpMVP_result
    w alpha x beta y transpose conjugate σ vx vy A Ax :
  x ≠ y → σ !! x = Some vx → σ !! y = Some vy →
  operand (conjugate_values conjugate w) transpose = Some A →
  length vy = Z.to_nat (num_rows A) →
  multiply A vx (replicate (length vy) V_zero) = Some Ax →
  beta = V_zero ∨ length vx = length vy →
  SpMVP w alpha x beta y transpose conjugate σ
    = Some (w, <[y := axpby alpha Ax beta vy]> σ) ∧
  (beta = V_zero → axpby alpha Ax beta vy = scale alpha Ax) ∧
  (alpha = V_zero → axpby alpha Ax beta vy = scale beta vy) ∧
  (alpha = V_one → beta = V_one →
   axpby alpha Ax beta vy = zip_with V_plus Ax vy).
Proof.
  intros Hne Hx Hy HA Hrows HAx Hdim.
  pose proof (multiply_length _ _ _ _ HAx) as HlAx.
  rewrite length_replicate in HlAx.
  repeat split.
  - by apply (SpMVP_compatible_dimensions w alpha x beta y transpose
                conjugate σ vx vy A Ax).
  - intros ->. by apply axpby_beta_zero.
  - intros ->. by apply axpby_alpha_zero.
  - intros -> ->. apply axpby_one_one.
Qed.

(** X20. In exact arithmetic, with [beta = 0] and an output of as many
    elements as the operand has rows, the result of [SpMVP] is the same
    whatever the output vector held before the call. *)
Theorem X20_SpMVP_beta_zero_ignores_y
    w alpha x y transpose conjugate σ vx vy vy' A Ax :
  x ≠ y → σ !! x = Some vx → σ !! y = Some vy →
  operand (conjugate_values conjugate w) transpose = Some A →
  length vy = Z.to_nat (num_rows A) → length vy' = length vy →
  multiply A vx (replicate (length vy) V_zero) = Some Ax →
  SpMVP w alpha x V_zero y transpose conjugate (<[y := vy']> σ)
  = SpMVP w alpha x V_zero y transpose conjugate σ.
Proof.
  intros Hne Hx Hy HA Hrows Hlen HAx.
  destruct (SpMVP_beta_zero_ignores_y w alpha x y transpose conjugate
              σ vx vy vy' A Ax) as [E1 E2]; try done.
  by rewrite E1, E2.
Qed.

(** X21. In exact arithmetic, [SpMVP] called with [x] and [y] at the same
    address leaves [alpha * Ax + beta * x] there, where [Ax] is the
    product of the operand with the prior contents of [x] written to a
    vector of the size of [x]. *)
Theorem X21_SpMVP_aliased
    w alpha x beta transpose conjugate σ vx A Ax :
  σ !! x = Some vx →
  operand (conjugate_values conjugate w) transpose = Some A →
  multiply A vx (replicate (length vx) V_zero) = Some Ax →
  SpMVP w alpha x beta x transpose conjugate σ
  = Some (w, <[x := axpby alpha Ax beta vx]> σ).
Proof.
  intros Hx HA HAx.
  pose proof (multiply_length _ _ _ _ HAx) as HlAx.
  rewrite length_replicate in HlAx.
  pose proof (lookup_lt_Some _ _ _ Hx) as Hltx.
  destruct (decide (beta = V_zero)) as [->|Hb].
  - rewrite axpby_beta_zero by done.
    unfold SpMVP. rewrite decide_True by done.
    destruct (decide (alpha ≠ V_zero)) as [Ha|Ha].
    + rewrite SpMV_aliased, HA, Hx. obind. rewrite HAx. obind.
      rewrite conjugate_values_involutive by apply V_conj_involutive.
      rewrite (scale_at_unless_one alpha x _ Ax)
        by (by apply list_lookup_insert_eq).
      obind. by rewrite list_insert_insert_eq.
    + apply dec_stable in Ha. subst alpha. obind.
      rewrite (scale_at_unless_one V_zero x σ vx) by done. obind.
      by rewrite !scale_zero, HlAx.
  - by apply (SpMVP_beta_nonzero w alpha x beta x transpose conjugate
                σ vx vx A Ax).
Qed.
End SpMVP_extras.

Lemma X19_SpMVP_result_witness :
  SpMVP example_2x2_made 2 0 3 1 false false [[1; 1]; [9; 9]]
    = Some (example_2x2_made,
            <[1%nat := axpby 2 [3; 7] 3 [9; 9]]> [[1; 1]; [9; 9]]) ∧
  (3 = V_zero → axpby 2 [3; 7] 3 [9; 9] = scale 2 [3; 7]) ∧
  (2 = V_zero → axpby 2 [3; 7] 3 [9; 9] = scale 3 [9; 9]) ∧
  (2 = V_one → 3 = V_one →
   axpby 2 [3; 7] 3 [9; 9] = zip_with V_plus [3; 7] [9; 9]).
Proof.
  apply (X19_SpMVP_result (ValueOps0 := Z_ops) example_2x2_made 2 0 3 1
           false false [[1; 1]; [9; 9]] [1; 1] [9; 9]
           (matrix example_2x2_made) [3; 7]).
  - lia.
  - reflexivity.
  - reflexivity.
  - reflexivity.
  - reflexivity.
  - vm_compute. reflexivity.
  - right. reflexivity.
Defined.

Lemma X20_SpMVP_beta_zero_ignores_y_witness :
  SpMVP example_2x1_made 3 0 V_zero 1 false false
    (<[1%nat := [8; 8]]> [[1]; [5; 5]])
  = SpMVP example_2x1_made 3 0 V_zero 1 false false [[1]; [5; 5]].
Proof.
  apply (X20_SpMVP_beta_zero_ignores_y (ValueOps0 := Z_ops)
           example_2x1_made 3 0 1 false false [[1]; [5; 5]] [1] [5; 5] [8; 8]
           (matrix example_2x1_made) [1; 2]).
  - lia.
  - reflexivity.
  - reflexivity.
  - reflexivity.
  - reflexivity.
  - reflexivity.
  - vm_compute. reflexivity.
Defined.

Lemma X21_SpMVP_aliased_witness :
  SpMVP example_2x2_made 2 0 3 0 false false [[1; 1]]
  = Some (example_2x2_made, <[0%nat := axpby 2 [3; 7] 3 [1; 1]]> [[1; 1]]).
Proof.
  apply (X21_SpMVP_aliased (ValueOps0 := Z_ops) example_2x2_made 2 0 3
           false false [[1; 1]] [1; 1] (matrix example_2x2_made) [3; 7]).
  - reflexivity.
  - reflexivity.
  - vm_compute. reflexivity.
Defined.

(** ** Materializing twice, and the conjugate flag on real values *)

Section further_extras.
Context {V : Type} `{!ValueOps V}.
Implicit Types (it : list (Z * V)) (w : SparseMatrixWrapper V)
  (σ : list (list V)).

(** X22. Materialization consumes the store: a second [make_matrix]
    without an insert in between finds no entry and is undefined,
    whatever the first one built. *)
Theorem X22_materialize_twice it w w' it' :
  make_matrix_from it w = Some w' →
  iteration_order (entries w') it' →
  make_matrix_from it' w' = None ∧ make_matrix w' = None.
Proof.
  intros Hw Hit.
  destruct (make_matrix_from_spec _ _ _ Hw) as (_ & _ & _ & _ & _ & He).
  unfold iteration_order in Hit. unfold make_matrix.
  rewrite He, map_to_list_empty in *.
  apply Permutation_nil_r in Hit. by subst it'.
Qed.

Lemma conjugate_values_real conjugate w :
  V_is_complex = false → conjugate_values conjugate w = w.
Proof. intros E. unfold conjugate_values. by rewrite E. Qed.

(** X23. For a value type that is none of the complex types, the
    [conjugate] flag has no effect: [SpMV] and [SpMVP] behave with it as
    without it. *)
Theorem X23_conjugate_ignored_for_real_values
    w alpha x beta y transpose conjugate σ :
  V_is_complex = false →
  SpMV w x y transpose conjugate σ = SpMV w x y transpose false σ ∧
  SpMVP w alpha x beta y transpose conjugate σ
  = SpMVP w alpha x beta y transpose false σ.
Proof.
  intros E.
  assert (H : ∀ x y σ, SpMV w x y transpose conjugate σ
                       = SpMV w x y transpose false σ).
  { intros x0 y0 σ0. unfold SpMV.
    by rewrite !(conjugate_values_real conjugate),
               !(conjugate_values_real false) by done. }
  split; [apply H|]. unfold SpMVP.
  destruct (decide (beta = V_zero)); [by rewrite H|].
  destruct (σ !! x) as [vx|]; [|done]. obind. by rewrite H.
Qed.
End further_extras.

Lemma X22_materialize_twice_witness :
  make_matrix_from (map_to_list (entries example_2x2_made)) example_2x2_made
    = None ∧
  make_matrix example_2x2_made = None.
Proof.
  apply (X22_materialize_twice (map_to_list (entries example_2x2))
           example_2x2 example_2x2_made).
  - exact example_2x2_materialized.
  - unfold iteration_order. reflexivity.
Defined.

Lemma X23_conjugate_ignored_for_real_values_witness :
  SpMV example_2x2_made 0 1 true true [[1; 1]; [9; 9]]
    = SpMV example_2x2_made 0 1 true false [[1; 1]; [9; 9]] ∧
  SpMVP example_2x2_made 2 0 3 1 true true [[1; 1]; [9; 9]]
    = SpMVP example_2x2_made 2 0 3 1 true false [[1; 1]; [9; 9]].
Proof.
  apply (X23_conjugate_ignored_for_real_values (ValueOps0 := Z_ops)).
  reflexivity.
Defined.
